(** * BizChat terminal client: the scroll state, message log, line wrapper
      and mention autocomplete of [src/UserInterface.js]

    A shallow embedding of the [UserInterface] class.  JavaScript strings
    are sequences of code units; the model keeps them as [list ascii]
    (code units in the byte range).  Numbers that the class only ever uses
    as integers ([scrollPosition], [term.height], [maxWidth]) are [Z];
    array lengths and indices are [nat].  [render()] only writes to the
    terminal and reads the state, so it does not appear in the state
    transformers below.  The styles of chalk depend on [chalk.level], which
    the functions that style text take as their first argument. *)

From Stdlib Require Import ZArith Lia Ascii String List Bool.
From stdpp Require Import base list strings.
Import ListNotations.

#[local] Open Scope Z_scope.

(** ** Strings *)

Abbreviation str := (list ascii).

Definition lit (s : string) : str := list_ascii_of_string s.

(** ** Message records *)

Inductive MessageType := chat | system | error | info | pending.

#[global] Instance MessageType_eq_dec : EqDecision MessageType.
Proof. solve_decision. Defined.

(** The object literals built by the [add*Message] methods: every record
    has [type], [text] and [timestamp]; [name] is set for chat and pending
    records, [id] for pending records only. *)
Record Message := mkMessage {
  type : MessageType;
  text : str;
  timestamp : str;
  name : option str;
  id : option Z
}.

#[global] Instance Message_eq_dec : EqDecision Message.
Proof. solve_decision. Defined.

(** ** The state of a [UserInterface] object *)

Inductive ViewMode := normal | scrolling.

#[global] Instance ViewMode_eq_dec : EqDecision ViewMode.
Proof. solve_decision. Defined.

(** [users] is a JavaScript [Set]: it iterates in insertion order and holds
    no duplicates, hence a list with the insertion discipline of [addUser].
    [termHeight] is [term.height] of the terminal-kit global. *)
Record UI := mkUI {
  messages : list Message;
  users : list str;
  updateStatus : option str;
  viewMode : ViewMode;
  scrollPosition : Z;
  termHeight : Z
}.

Definition maxMessages : nat := 500.

(** The state the constructor builds, for a terminal of the given height. *)
Definition constructor (height : Z) : UI :=
  {| messages := []; users := []; updateStatus := None;
     viewMode := normal; scrollPosition := 0; termHeight := height |}.

Definition set_scroll (s : UI) (pos : Z) (mode : ViewMode) : UI :=
  {| messages := messages s; users := users s; updateStatus := updateStatus s;
     viewMode := mode; scrollPosition := pos; termHeight := termHeight s |}.

Definition set_messages (s : UI) (ms : list Message) : UI :=
  {| messages := ms; users := users s; updateStatus := updateStatus s;
     viewMode := viewMode s; scrollPosition := scrollPosition s;
     termHeight := termHeight s |}.

(** [this.updateStatus ? 4 : 3]: [null] and the empty string are falsy. *)
Definition truthy_str (o : option str) : bool :=
  match o with
  | Some (_ :: _) => true
  | _ => false
  end.

(** [getVisibleMessageCount]. The source divides by the doubles 1.2 and 1.5
    and floors.  [1.5] is exact, so [Math.floor(h / 1.5)] is the integer
    quotient of [2h] by [3]; the branch for [1.2] is taken only for
    [1 <= h <= 9], where the floored double quotients are
    0,1,2,3,4,5,5,6,7, the integer quotients of [5h] by [6].  Terminal
    heights are far below the range where doubles stop being exact. *)
Definition getVisibleMessageCount (s : UI) : Z :=
  let height := termHeight s in
  let headerHeight := if truthy_str (updateStatus s) then 4 else 3 in
  let inputHeight := 3 in
  let contentHeight := height - headerHeight - inputHeight in
  let messageDisplayHeight := contentHeight - 2 in
  if messageDisplayHeight <? 1 then 1
  else
    let quotient :=
      if messageDisplayHeight <? 10
      then (5 * messageDisplayHeight) / 6
      else (2 * messageDisplayHeight) / 3 in
    Z.max 1 quotient.

Definition messages_length (s : UI) : Z := Z.of_nat (length (messages s)).

(** [Math.max(0, this.messages.length - this.getVisibleMessageCount())] *)
Definition maxScroll (s : UI) : Z :=
  Z.max 0 (messages_length s - getVisibleMessageCount s).

(** ** Scroll methods *)

Definition scrollUp (s : UI) : UI :=
  if scrollPosition s <? maxScroll s
  then set_scroll s (scrollPosition s + 1) scrolling
  else s.

Definition scrollDown (s : UI) : UI :=
  if 0 <? scrollPosition s
  then
    let pos := scrollPosition s - 1 in
    set_scroll s pos (if pos =? 0 then normal else viewMode s)
  else s.

Definition scrollPageUp (s : UI) : UI :=
  let pageSize := Z.max 1 (getVisibleMessageCount s - 1) in
  set_scroll s (Z.min (maxScroll s) (scrollPosition s + pageSize)) scrolling.

Definition scrollPageDown (s : UI) : UI :=
  let pageSize := Z.max 1 (getVisibleMessageCount s - 1) in
  let pos := Z.max 0 (scrollPosition s - pageSize) in
  set_scroll s pos (if pos =? 0 then normal else viewMode s).

Definition scrollToTop (s : UI) : UI :=
  set_scroll s (maxScroll s) scrolling.

Definition scrollToBottom (s : UI) : UI :=
  set_scroll s 0 normal.

(** [adjustScrollPositionForResize], run by the resize handler when the
    view is not in normal mode. *)
Definition adjustScrollPositionForResize (s : UI) : UI :=
  let pos := Z.min (scrollPosition s) (maxScroll s) in
  set_scroll s pos (if pos =? 0 then normal else viewMode s).

(** The keys the key handler dispatches to the scroll methods. *)
Inductive ScrollKey := UP | DOWN | PAGE_UP | PAGE_DOWN | HOME | END.

Definition onKey (k : ScrollKey) (s : UI) : UI :=
  match k with
  | UP => scrollUp s
  | DOWN => scrollDown s
  | PAGE_UP => scrollPageUp s
  | PAGE_DOWN => scrollPageDown s
  | HOME => scrollToTop s
  | END => scrollToBottom s
  end.

(** The states after each call of a sequence of scroll calls, in order. *)
Fixpoint scrollTrace (s : UI) (ks : list ScrollKey) : list UI :=
  match ks with
  | [] => []
  | k :: ks' => onKey k s :: scrollTrace (onKey k s) ks'
  end.

Definition scroll_bounds (s : UI) : Prop :=
  0 <= scrollPosition s <= maxScroll s.

(** ** The roster *)

(** [this.users.add(username)] *)
Definition addUser (username : str) (s : UI) : UI :=
  {| messages := messages s;
     users := if bool_decide (username ∈ users s) then users s
              else users s ++ [username];
     updateStatus := updateStatus s; viewMode := viewMode s;
     scrollPosition := scrollPosition s; termHeight := termHeight s |}.

(** [this.users.delete(username)] *)
Definition removeUser (username : str) (s : UI) : UI :=
  {| messages := messages s;
     users := filter (λ u, u ≠ username) (users s);
     updateStatus := updateStatus s; viewMode := viewMode s;
     scrollPosition := scrollPosition s; termHeight := termHeight s |}.

(** ** The message log *)

(** The clock the methods read: [Date.now()] and the locale formatting of
    a time value, [new Date(t).toLocaleTimeString()]. *)
Record Date := mkDate {
  Date_now : Z;
  toLocaleTimeString : Z → str
}.

(** [trimMessages]; [this.messages.slice(-this.maxMessages)] keeps the last
    [maxMessages] elements. *)
Definition trimMessages (s : UI) : UI :=
  if (maxMessages <? length (messages s))%nat then
    let removed := (length (messages s) - maxMessages)%nat in
    let kept := drop removed (messages s) in
    if 0 <? scrollPosition s then
      let pos := Z.max 0 (scrollPosition s - Z.of_nat removed) in
      {| messages := kept; users := users s; updateStatus := updateStatus s;
         viewMode := if pos =? 0 then normal else viewMode s;
         scrollPosition := pos; termHeight := termHeight s |}
    else set_messages s kept
  else s.

(** [this.messages.push(m)] *)
Definition push (m : Message) (s : UI) : UI :=
  set_messages s (messages s ++ [m]).

Definition addPendingMessage (d : Date) (txt : str) (s : UI) : UI :=
  let pendingMessage :=
    {| type := pending; text := txt;
       timestamp := toLocaleTimeString d (Date_now d);
       name := Some (lit "You"); id := Some (Date_now d) |} in
  scrollToBottom (trimMessages (push pendingMessage s)).

(** The search loop of [addChatMessage]: [i] runs from [n - 1] down to 0 and
    stops at the first pending record whose text is [txt]. *)
Fixpoint searchPending (ms : list Message) (txt : str) (n : nat) : option nat :=
  match n with
  | O => None
  | S i =>
      match ms !! i with
      | Some m =>
          if bool_decide (type m = pending) && bool_decide (text m = txt)
          then Some i
          else searchPending ms txt i
      | None => searchPending ms txt i
      end
  end.

(** The [timestamp] argument of [addChatMessage] is a number or is missing;
    [0] and a missing value are falsy. *)
Definition chatTime (d : Date) (timestamp : option Z) : str :=
  match timestamp with
  | Some t => if t =? 0 then toLocaleTimeString d (Date_now d)
              else toLocaleTimeString d t
  | None => toLocaleTimeString d (Date_now d)
  end.

Definition chatRecord (d : Date) (nm txt : str) (timestamp : option Z) : Message :=
  {| type := chat; text := txt; timestamp := chatTime d timestamp;
     name := Some nm; id := None |}.

Definition addChatMessage (d : Date) (nm txt : str) (timestamp : option Z)
    (s : UI) : UI :=
  let pendingIndex := searchPending (messages s) txt (length (messages s)) in
  let s1 :=
    match pendingIndex with
    | Some i => set_messages s (<[i := chatRecord d nm txt timestamp]> (messages s))
    | None => push (chatRecord d nm txt timestamp) s
    end in
  trimMessages s1.

Definition plainRecord (d : Date) (k : MessageType) (txt : str) : Message :=
  {| type := k; text := txt; timestamp := toLocaleTimeString d (Date_now d);
     name := None; id := None |}.

Definition addSystemMessage (d : Date) (txt : str) (s : UI) : UI :=
  trimMessages (push (plainRecord d system txt) s).

Definition addErrorMessage (d : Date) (txt : str) (s : UI) : UI :=
  trimMessages (push (plainRecord d error txt) s).

Definition addInfoMessage (d : Date) (txt : str) (s : UI) : UI :=
  trimMessages (push (plainRecord d info txt) s).

(** ** Mention autocomplete *)

Definition code (c : ascii) : N := N_of_ascii c.

(** [String.prototype.toLowerCase] on code units of the byte range: the
    letters A-Z and the Latin-1 capitals U+00C0-U+00DE (U+00D7, the
    multiplication sign, excepted) move up by 32. *)
Definition lowerChar (c : ascii) : ascii :=
  let n := code c in
  if ((65 <=? n) && (n <=? 90)
      || (192 <=? n) && (n <=? 222) && negb (n =? 215))%N
  then ascii_of_N (n + 32)
  else c.

Definition toLowerCase (s : str) : str := map lowerChar s.

Fixpoint startsWith (s p : str) : bool :=
  match p, s with
  | [], _ => true
  | _ :: _, [] => false
  | b :: p', a :: s' => bool_decide (a = b) && startsWith s' p'
  end.

(** [s.lastIndexOf(c)], [None] for -1. *)
Fixpoint lastIndexOf (s : str) (c : ascii) : option nat :=
  match s with
  | [] => None
  | a :: s' =>
      match lastIndexOf s' c with
      | Some i => Some (S i)
      | None => if bool_decide (a = c) then Some O else None
      end
  end.

Definition handleAutoComplete (s : UI) (input : str) : list str :=
  match input with
  | [] => []
  | _ =>
      match lastIndexOf input "@"%char with
      | None => []
      | Some lastAtIndex =>
          let searchTerm := toLowerCase (drop (lastAtIndex + 1) input) in
          let usersList := users s in
          map (λ user, take (lastAtIndex + 1) input ++ user)
              (filter (λ user, startsWith (toLowerCase user) searchTerm = true)
                      usersList)
      end
  end.

(** ** The line wrapper *)

Definition ESC : ascii := ascii_of_N 27.

Definition is_param (c : ascii) : bool :=
  ((48 <=? code c) && (code c <=? 57))%N || bool_decide (c = ";"%char).

(** Length of the longest prefix matching [[0-9;]*m], if there is one. *)
Fixpoint sgr_params (s : str) : option nat :=
  match s with
  | [] => None
  | c :: s' =>
      if bool_decide (c = "m"%char) then Some 1%nat
      else if is_param c then S <$> sgr_params s'
      else None
  end.

(** Length of the match of [/\u001b\[[0-9;]*m/] at the start of [s]. *)
Definition sgr_match (s : str) : option nat :=
  match s with
  | e :: b :: s' =>
      if bool_decide (e = ESC) && bool_decide (b = "["%char)
      then (λ n, S (S n)) <$> sgr_params s'
      else None
  | _ => None
  end.

(** [str.replace(/\u001b\[[0-9;]*m/g, '')], scanning left to right: where a
    match starts its characters are skipped, any other character is kept.
    [skip] counts the characters of the current match still to be dropped. *)
Fixpoint strip_skip (skip : nat) (s : str) : str :=
  match s with
  | [] => []
  | c :: s' =>
      match skip with
      | S k => strip_skip k s'
      | O =>
          match sgr_match (c :: s') with
          | Some n => strip_skip (pred n) s'
          | None => c :: strip_skip O s'
          end
      end
  end.

Definition stripAnsiCodes (s : str) : str := strip_skip O s.

(** The escape sequence [ESC [ code m]. *)
Definition sgr (code : string) : str := ESC :: lit "[" ++ lit code ++ lit "m".

Definition LF : ascii := ascii_of_N 10.

Definition CR : ascii := ascii_of_N 13.

(** chalk's [stringReplaceAll(string, substring, replacer)]: every
    occurrence of [substring], found from left to right without overlap, is
    kept and followed by [replacer].  [inside] counts the characters of the
    current occurrence that are still to be copied. *)
Fixpoint replace_scan (inside : nat) (s substring replacer : str) : str :=
  match s with
  | [] => []
  | c :: s' =>
      let inside' :=
        match inside with
        | O => if startsWith (c :: s') substring then length substring else O
        | _ => inside
        end in
      match inside' with
      | 1%nat => c :: replacer ++ replace_scan O s' substring replacer
      | _ => c :: replace_scan (pred inside') s' substring replacer
      end
  end.

Definition stringReplaceAll (s substring replacer : str) : str :=
  replace_scan O s substring replacer.

(** chalk's [stringEncaseCRLFWithFirstIndex(string, prefix, postfix, index)]
    for a string that holds a line feed: every line feed, with the carriage
    return before it if there is one, is put between [prefix] and
    [postfix]. *)
Fixpoint stringEncaseCRLF (s prefix postfix : str) : str :=
  match s with
  | [] => []
  | c :: s' =>
      if bool_decide (c = LF)
      then prefix ++ LF :: postfix ++ stringEncaseCRLF s' prefix postfix
      else
        match s' with
        | d :: s'' =>
            if bool_decide (c = CR) && bool_decide (d = LF)
            then prefix ++ CR :: LF :: postfix ++ stringEncaseCRLF s'' prefix postfix
            else c :: stringEncaseCRLF s' prefix postfix
        | [] => [c]
        end
  end.

(** A styler of chalk: its opening and its closing sequence. *)
Record Styler := mkStyler {
  open : str;
  close : str
}.

(** A call [chalk.<style>...(s)] as chalk's [applyStyle] computes it.
    [level] is [chalk.level], 0 where the terminal has no colours (a pipe,
    [NO_COLOR], [--no-color], [TERM=dumb]); [stylers] are the styles of the
    chain from the first to the last, so that [chalk.green.bold] is
    [[green; bold]].  At level 0 and for the empty string the text comes
    back unchanged.  Otherwise a text that holds an escape character has
    each closing sequence followed by the opening one again, from the last
    styler to the first, line feeds are encased, and the result is put
    between all opening and all closing sequences. *)
Definition chalk (level : nat) (stylers : list Styler) (s : str) : str :=
  if (level =? 0)%nat || bool_decide (s = []) then s
  else
    let openAll := concat (open <$> stylers) in
    let closeAll := concat (close <$> reverse stylers) in
    let reopened :=
      if bool_decide (ESC ∈ s)
      then fold_left (λ string styler,
                        stringReplaceAll string (close styler) (open styler))
             (reverse stylers) s
      else s in
    let encased :=
      if bool_decide (LF ∈ reopened)
      then stringEncaseCRLF reopened closeAll openAll
      else reopened in
    openAll ++ encased ++ closeAll.

Definition gray : Styler := {| open := sgr "90"; close := sgr "39" |}.
Definition red : Styler := {| open := sgr "31"; close := sgr "39" |}.
Definition cyan : Styler := {| open := sgr "36"; close := sgr "39" |}.
Definition green : Styler := {| open := sgr "32"; close := sgr "39" |}.
Definition yellow : Styler := {| open := sgr "33"; close := sgr "39" |}.
Definition bold : Styler := {| open := sgr "1"; close := sgr "22" |}.

Definition chalk_gray (level : nat) : str → str := chalk level [gray].
Definition chalk_red (level : nat) : str → str := chalk level [red].
Definition chalk_cyan (level : nat) : str → str := chalk level [cyan].
Definition chalk_green_bold (level : nat) : str → str := chalk level [green; bold].
Definition chalk_yellow_bold (level : nat) : str → str := chalk level [yellow; bold].

(** [s.split(' ')]: never empty, [''] for the empty string. *)
Fixpoint split_space (s : str) : list str :=
  match s with
  | [] => [[]]
  | c :: s' =>
      if bool_decide (c = " "%char) then [] :: split_space s'
      else match split_space s' with
           | w :: ws => (c :: w) :: ws
           | [] => [[c]]
           end
  end.

(** White space and line terminators of the byte range, as [trim] sees
    them: TAB, LF, VT, FF, CR, SP and NBSP. *)
Definition is_white_space (c : ascii) : bool :=
  let n := code c in
  ((9 <=? n) && (n <=? 13) || (n =? 32) || (n =? 160))%N.

Fixpoint trimStart (s : str) : str :=
  match s with
  | [] => []
  | c :: s' => if is_white_space c then trimStart s' else s
  end.

Definition trimEnd (s : str) : str := rev (trimStart (rev s)).

Definition trim (s : str) : str := trimEnd (trimStart s).

(** [s.endsWith(' ')] *)
Definition endsWith_space (s : str) : bool :=
  match last s with
  | Some c => bool_decide (c = " "%char)
  | None => false
  end.

(** A name that was never set prints as [undefined]. *)
Definition name_text (msg : Message) : str :=
  default (lit "undefined") (name msg).

(** The [switch (msg.type)] of [formatMessageToLines]; its [default] branch
    is for types other than the five that the class creates. *)
Definition content (level : nat) (msg : Message) : str :=
  match type msg with
  | chat => chalk_green_bold level (name_text msg) ++ lit ": " ++ text msg
  | system => chalk_gray level (text msg)
  | error => chalk_red level (text msg)
  | info => chalk_cyan level (text msg)
  | pending =>
      chalk_yellow_bold level (name_text msg) ++ lit ": "
        ++ chalk_gray level (text msg)
        ++ lit " " ++ chalk_gray level (lit "(sending...)")
  end.

Definition bracket (msg : Message) : str := lit "[" ++ timestamp msg ++ lit "]".

(** [`${chalk.gray(timestamp)} ${content}`] *)
Definition fullMessage (level : nat) (msg : Message) : str :=
  chalk_gray level (bracket msg) ++ lit " " ++ content level msg.

(** The variables of the wrapping loop. *)
Record Wrap := mkWrap {
  lines : list str;
  currentLine : str;
  currentPlainLine : str
}.

Definition indent (ts : str) : str := replicate (length ts + 2) " "%char.

(** [lines.push(currentLine)] unless the line holds the timestamp alone. *)
Definition pushLine (level : nat) (ts : str) (w : Wrap) : list str :=
  if bool_decide (trim (currentLine w) ≠ chalk_gray level ts)
  then lines w ++ [currentLine w]
  else lines w.

(** One iteration of [for (const word of words)]; [ts] is the bracketed
    timestamp. *)
Definition wrapWord (level : nat) (ts : str) (maxWidth : Z) (w : Wrap) (word : str)
    : Wrap :=
  let plainWord := stripAnsiCodes word in
  let testLine :=
    currentPlainLine w
      ++ (if endsWith_space (currentPlainLine w) then [] else lit " ")
      ++ plainWord in
  if Z.of_nat (length testLine) <=? maxWidth then
    if bool_decide (currentLine w = chalk_gray level ts ++ lit " ") then
      {| lines := lines w;
         currentLine := currentLine w ++ word;
         currentPlainLine := currentPlainLine w ++ plainWord |}
    else
      {| lines := lines w;
         currentLine := currentLine w ++ lit " " ++ word;
         currentPlainLine := currentPlainLine w ++ lit " " ++ plainWord |}
  else
    {| lines := pushLine level ts w;
       currentLine := chalk_gray level (indent ts) ++ word;
       currentPlainLine := indent ts ++ plainWord |}.

Definition wrapStart (level : nat) (ts : str) : Wrap :=
  {| lines := [];
     currentLine := chalk_gray level ts ++ lit " ";
     currentPlainLine := ts ++ lit " " |}.

Definition wrapWords (level : nat) (ts : str) (maxWidth : Z) (words : list str) : Wrap :=
  fold_left (wrapWord level ts maxWidth) words (wrapStart level ts).

(** [formatMessageToLines(msg, maxWidth)] where [chalk.level] is [level]. *)
Definition formatMessageToLines (level : nat) (msg : Message) (maxWidth : Z) : list str :=
  let plainText := stripAnsiCodes (fullMessage level msg) in
  if Z.of_nat (length plainText) <=? maxWidth then [fullMessage level msg]
  else
    let words := split_space (content level msg) in
    let lines :=
      pushLine level (bracket msg) (wrapWords level (bracket msg) maxWidth words) in
    match lines with
    | [] => [fullMessage level msg]
    | _ => lines
    end.



Definition plainLength (line : str) : Z := Z.of_nat (length (stripAnsiCodes line)).

(** ** Events *)

(** The resize handler of [setupTerminal], run once terminal-kit has
    recorded the new height. *)
Definition onResize (height : Z) (s : UI) : UI :=
  let resized :=
    {| messages := messages s; users := users s; updateStatus := updateStatus s;
       viewMode := viewMode s; scrollPosition := scrollPosition s;
       termHeight := height |} in
  if bool_decide (viewMode resized = normal) then scrollToBottom resized
  else adjustScrollPositionForResize resized.

(** What reaches a running interface: keys, resizes, the callbacks of the
    connection, and a submitted line, which [startInputLoop] echoes as
    pending before it scrolls to the bottom. *)
Inductive Event :=
  | KeyPressed (k : ScrollKey)
  | Resized (height : Z)
  | SystemMessage (d : Date) (txt : str)
  | ErrorMessage (d : Date) (txt : str)
  | InfoMessage (d : Date) (txt : str)
  | ChatMessage (d : Date) (nm txt : str) (timestamp : option Z)
  | Submitted (d : Date) (txt : str)
  | UserJoined (username : str)
  | UserLeft (username : str).

Definition handle (s : UI) (e : Event) : UI :=
  match e with
  | KeyPressed k => onKey k s
  | Resized height => onResize height s
  | SystemMessage d txt => addSystemMessage d txt s
  | ErrorMessage d txt => addErrorMessage d txt s
  | InfoMessage d txt => addInfoMessage d txt s
  | ChatMessage d nm txt timestamp => addChatMessage d nm txt timestamp s
  | Submitted d txt => scrollToBottom (addPendingMessage d txt s)
  | UserJoined username => addUser username s
  | UserLeft username => removeUser username s
  end.

(** ** Sample data and the predicates of the proofs *)

Definition sampleRecord : Message :=
  {| type := system; text := lit "joined"; timestamp := lit "10:00:00";
     name := None; id := None |}.

(** Thirty records in a 24-row terminal: ten fit, so [maxScroll] is 20. *)
Definition sampleUI : UI :=
  {| messages := replicate 30 sampleRecord; users := [lit "alice"; lit "Bob"];
     updateStatus := None; viewMode := normal; scrollPosition := 0;
     termHeight := 24 |}.

(** The agreement of mode and position that the class keeps elsewhere. *)
Definition mode_agrees (s : UI) : Prop :=
  (viewMode s = normal ↔ scrollPosition s = 0)
  ∧ (viewMode s = scrolling ↔ 0 < scrollPosition s).

Definition sampleDate : Date :=
  {| Date_now := 1700000000000; toLocaleTimeString := λ _, lit "10:00:00" |}.

Definition pendingHi : Message :=
  {| type := pending; text := lit "hi"; timestamp := lit "10:00:00";
     name := Some (lit "You"); id := Some 1700000000000 |}.

(** A log holding a system record, the pending echo of "hi" and another
    system record. *)
Definition pendingUI : UI :=
  {| messages := [sampleRecord; pendingHi; sampleRecord]; users := [];
     updateStatus := None; viewMode := normal; scrollPosition := 0;
     termHeight := 24 |}.

(** A log at its capacity of 500 records, none pending, scrolled up by 50. *)
Definition fullUI : UI :=
  {| messages := replicate 500 sampleRecord; users := [];
     updateStatus := None; viewMode := scrolling; scrollPosition := 50;
     termHeight := 24 |}.

(** A log of 599 records, a hundred more than the class ever keeps once the
    next record is pushed, scrolled up by 50. *)
Definition overfullUI : UI :=
  {| messages := replicate 599 sampleRecord; users := [];
     updateStatus := None; viewMode := scrolling; scrollPosition := 50;
     termHeight := 24 |}.


(** The line under construction once it holds a word: the timestamp line
    with some visible text, or a continuation line. *)
Definition line_shape (level : nat) (ts : str) (line : str) : Prop :=
  (∃ X c, line = chalk_gray level ts ++ " "%char :: X ∧ c ∈ X ∧ is_white_space c = false)
  ∨ (∃ X, line = chalk_gray level (indent ts) ++ X).





(** The record of the examples: bob says "hello wonderful" at 10:00:00. *)
Definition helloRecord : Message :=
  {| type := chat; text := lit "hello wonderful"; timestamp := lit "10:00:00";
     name := Some (lit "bob"); id := None |}.

(** The same sender with a doubled space in the text. *)
Definition doubledRecord : Message :=
  {| type := chat; text := lit "hello  wo"; timestamp := lit "10:00:00";
     name := Some (lit "bob"); id := None |}.

(** A text that quotes the record's own bracketed timestamp. *)
Definition quoteRecord : Message :=
  {| type := chat; text := lit "at [10:00:00] ok"; timestamp := lit "10:00:00";
     name := Some (lit "bob"); id := None |}.

(** ** What is displayed *)

(** The index that [slice] makes of an integer argument for an array of
    [len] elements: a negative argument counts from the end. *)
Definition sliceIndex (len : nat) (i : Z) : nat :=
  if i <? 0 then Z.to_nat (Z.max 0 (Z.of_nat len + i))
  else Nat.min (Z.to_nat i) len.

(** [array.slice(start, end)], and [array.slice(start)] for [None]. *)
Definition slice {A : Type} (l : list A) (start : Z) (end_ : option Z) : list A :=
  let from := sliceIndex (length l) start in
  let to := match end_ with
            | Some e => sliceIndex (length l) e
            | None => length l
            end in
  take (to - from) (drop from l).

Definition getMessagesToDisplay (s : UI) : list Message :=
  let totalMessages := messages_length s in
  if totalMessages =? 0 then []
  else if bool_decide (viewMode s = normal) || (scrollPosition s =? 0) then
    let estimatedVisibleCount := getVisibleMessageCount s in
    let minMessages := 1 in
    let maxMessages := Z.max minMessages estimatedVisibleCount in
    let startIndex := Z.max 0 (totalMessages - maxMessages) in
    slice (messages s) startIndex None
  else
    let estimatedVisibleCount := getVisibleMessageCount s in
    let endIndex := totalMessages - scrollPosition s in
    let startIndex := Z.max 0 (endIndex - estimatedVisibleCount) in
    slice (messages s) startIndex (Some endIndex).

(** A call [term.moveTo(column, row)] followed by the call [term(termArg)]
    of [renderMessages]; terminal-kit writes the string after expanding its
    own [^] and [%] markup. *)
Record Draw := mkDraw {
  column : Z;
  row : Z;
  termArg : str
}.

(** [str.repeat(count)] raises a RangeError for a negative count. *)
Definition repeat_raises (count : Z) : bool := count <? 0.

(** [for (i = 0; i < lines.length && currentY <= maxY; i++)] of the normal
    branch of [renderMessages]. *)
Fixpoint drawRows (x currentY maxY : Z) (lines : list str) : list Draw :=
  match lines with
  | [] => []
  | line :: rest =>
      if currentY <=? maxY
      then {| column := x; row := currentY; termArg := line |}
             :: drawRows x (currentY + 1) maxY rest
      else []
  end.

(** The first pass of the normal branch: the lines of each message, newest
    message first, are put in front of what has been collected. *)
Definition collectLines (level : nat) (maxLineWidth : Z)
    (reversedMessages : list Message) : list str :=
  fold_left (λ renderedLines message,
               formatMessageToLines level message maxLineWidth ++ renderedLines)
    reversedMessages [].

(** The inner loop of the scrolling branch: the lines of one message, until
    the rows run out; the result carries the next row. *)
Fixpoint drawLines (x currentY maxY : Z) (messageLines : list str) : list Draw * Z :=
  match messageLines with
  | [] => ([], currentY)
  | line :: rest =>
      if maxY <? currentY then ([], currentY)
      else
        let '(drawn, nextY) := drawLines x (currentY + 1) maxY rest in
        ({| column := x; row := currentY; termArg := line |} :: drawn, nextY)
  end.

(** The outer loop of the scrolling branch. *)
Fixpoint drawMessages (level : nat) (x currentY maxY maxLineWidth : Z)
    (messagesToShow : list Message) : list Draw :=
  match messagesToShow with
  | [] => []
  | message :: rest =>
      if maxY <? currentY then []
      else
        let '(drawn, nextY) :=
          drawLines x currentY maxY
            (formatMessageToLines level message maxLineWidth) in
        drawn ++ drawMessages level x nextY maxY maxLineWidth rest
  end.

(** The calls [term(line)] of [renderMessages(x, y, width, height)], in
    order, where [chalk.level] is [level].  The title, the scroll
    indicator and the rule on rows [y] and [y + 1] come before them and are
    not part of the result; the rule is ['─'.repeat(width - 1)], so that for
    [width <= 0] a RangeError leaves the method before any message row:
    the result is [None]. *)
Definition renderMessages (level : nat) (s : UI) (x y width height : Z)
    : option (list Draw) :=
  if repeat_raises (width - 1) then None
  else
    let startY := y + 2 in
    let messageDisplayHeight := height - 2 in
    let maxLineWidth := width - 2 in
    let messagesToShow := getMessagesToDisplay s in
    let currentY := startY in
    let maxY := startY + messageDisplayHeight - 1 in
    if bool_decide (viewMode s = normal) && (0 <? Z.of_nat (length messagesToShow)) then
      let reversedMessages := reverse messagesToShow in
      let renderedLines := collectLines level maxLineWidth reversedMessages in
      let availableLines := maxY - startY + 1 in
      let linesToRender := slice renderedLines (- availableLines) None in
      Some (drawRows x currentY maxY linesToRender)
    else
      Some (drawMessages level x currentY maxY maxLineWidth messagesToShow).

(** A call [term.moveTo(rosterColumn, rosterRow)] followed by the call
    [term.green] of [renderUsers].  The string passed to it is a bullet, a
    space and [nameArg]; terminal-kit writes it after expanding its own
    markup. *)
Record RosterDraw := mkRosterDraw {
  rosterColumn : Z;
  rosterRow : Z;
  nameArg : str
}.

(** The calls [term.green(...)] of [renderUsers(x, y, width, height)], in
    order: the user at [index] goes on row [startY + index] when that row
    is above [y + height - 1], with [user.substring(0, width - 4)] after the
    bullet.  The title and the rule come first, and the rule,
    ['─'.repeat(width - 1)], raises a RangeError for [width <= 0]: the
    result is [None]. *)
Definition renderUsers (s : UI) (x y width height : Z) : option (list RosterDraw) :=
  if repeat_raises (width - 1) then None
  else
    let startY := y + 2 in
    let usersList := users s in
    Some (omap (λ entry : nat * str,
                  let '(index, user) := entry in
                  let lineY := startY + Z.of_nat index in
                  if lineY <? y + height - 1
                  then Some {| rosterColumn := x; rosterRow := lineY;
                               nameArg := take (Z.to_nat (width - 4)) user |}
                  else None)
               (imap (λ index user, (index, user)) usersList)).

(** The geometry of [renderMainContent] for a terminal of the given width:
    the arguments it passes to [renderMessages] and [renderUsers].
    [Math.floor(width * 0.75)] is exact: a quarter of three times the
    width, rounded down. *)
Definition headerHeight (s : UI) : Z := if truthy_str (updateStatus s) then 4 else 3.

Definition contentHeight (s : UI) : Z :=
  let inputHeight := 3 in
  termHeight s - headerHeight s - inputHeight.

Definition messageAreaWidth (width : Z) : Z := (3 * width) / 4.

Definition userAreaWidth (width : Z) : Z := width - messageAreaWidth width - 1.

Definition renderMainContent (level : nat) (s : UI) (width : Z)
    : option (list Draw * list RosterDraw) :=
  messageRows ← renderMessages level s 1 (headerHeight s + 1) (messageAreaWidth width)
                   (contentHeight s);
  userRows ← renderUsers s (messageAreaWidth width + 2) (headerHeight s + 1)
                (userAreaWidth width) (contentHeight s);
  Some (messageRows, userRows).


(** ** The connection *)

(** A parsed server message.  The fields that the client and the
    application test: strings when present, an integer time stamp, the
    [ready] flag. *)
Record Payload := mkPayload {
  p_error : option str;
  p_joined : option str;
  p_quit : option str;
  p_ready : bool;
  p_timestamp : option Z;
  p_name : option str;
  p_message : option str
}.

(** [data.timestamp] as a condition. *)
Definition truthy_num (o : option Z) : bool :=
  match o with
  | Some t => negb (t =? 0)
  | None => false
  end.

Inductive Emitted :=
  | EmitError (e : str)
  | EmitUserJoined (username : str)
  | EmitUserLeft (username : str)
  | EmitMessage (data : Payload).

(** [WebSocketClient.handleMessage]: the new [lastSeenTimestamp] and the
    event emitted, if any. *)
Definition handleMessage (lastSeenTimestamp : Z) (data : Payload) : Z * option Emitted :=
  if truthy_str (p_error data) then
    (lastSeenTimestamp, EmitError <$> p_error data)
  else if truthy_str (p_joined data) then
    (lastSeenTimestamp, EmitUserJoined <$> p_joined data)
  else if truthy_str (p_quit data) then
    (lastSeenTimestamp, EmitUserLeft <$> p_quit data)
  else if p_ready data then
    (lastSeenTimestamp, Some (EmitMessage data))
  else
    match p_timestamp data with
    | Some t =>
        if negb (t =? 0) && (lastSeenTimestamp <? t)
        then (t, Some (EmitMessage data))
        else (lastSeenTimestamp, None)
    | None => (lastSeenTimestamp, None)
    end.

(** The messages of a connection, in order of arrival. *)
Fixpoint handleMessages (lastSeenTimestamp : Z) (arrivals : list Payload)
    : Z * list Emitted :=
  match arrivals with
  | [] => (lastSeenTimestamp, [])
  | data :: rest =>
      let '(seen, emitted) := handleMessage lastSeenTimestamp data in
      let '(final, more) := handleMessages seen rest in
      (final, match emitted with
              | Some e => e :: more
              | None => more
              end)
  end.

(** ** The update check *)

(** [s.split(sep)] for a separator of one character. *)
Fixpoint split_on (sep : ascii) (s : str) : list str :=
  match s with
  | [] => [[]]
  | c :: s' =>
      if bool_decide (c = sep) then [] :: split_on sep s'
      else match split_on sep s' with
           | w :: ws => (c :: w) :: ws
           | [] => [[c]]
           end
  end.

(** The loop of [UpdateChecker.isNewerVersion] from index [i], with
    [remaining] iterations to go; a part beyond the end of a list reads as 0. *)
Fixpoint newerFrom (latestParts currentParts : list Z) (i remaining : nat) : bool :=
  match remaining with
  | O => false
  | S remaining' =>
      let latestPart := nth i latestParts 0 in
      let currentPart := nth i currentParts 0 in
      if currentPart <? latestPart then true
      else if latestPart <? currentPart then false
      else newerFrom latestParts currentParts (S i) remaining'
  end.

(** [isNewerVersion(latest, current)].  [toNumber] is [Number(part) || 0] on
    the parts of a version string, an integer. *)
Definition isNewerVersion (toNumber : str → Z) (latest current : str) : bool :=
  let latestParts := map toNumber (split_on "."%char latest) in
  let currentParts := map toNumber (split_on "."%char current) in
  newerFrom latestParts currentParts O
    (Nat.max (length latestParts) (length currentParts)).

(** ** Predicates of the further properties *)

(** What holds of every state the interface reaches. *)
Definition ui_invariant (s : UI) : Prop :=
  (length (messages s) ≤ 500)%nat
  ∧ scroll_bounds s
  ∧ (viewMode s = normal → scrollPosition s = 0).

(** The time stamp of an emitted chat message, the ready notice apart. *)
Definition chatStamp (e : Emitted) : option Z :=
  match e with
  | EmitMessage data => if p_ready data then None else p_timestamp data
  | _ => None
  end.

(** A payload that is neither an error, a join, a leave nor the ready
    notice: a chat message of the history or of the room. *)
Definition chat_only (data : Payload) : Prop :=
  truthy_str (p_error data) = false ∧ truthy_str (p_joined data) = false
  ∧ truthy_str (p_quit data) = false ∧ p_ready data = false.

(** The parts of two versions differ first at index [k], where the first
    is the larger. *)
Definition first_larger_at (a b : list Z) (k : nat) : Prop :=
  nth k b 0 < nth k a 0 ∧ ∀ j, (j < k)%nat → nth j a 0 = nth j b 0.

(** * Properties *)

(** ** Scroll state *)

Lemma getVisibleMessageCount_min (s : UI) : 1 <= getVisibleMessageCount s.
Proof.
  unfold getVisibleMessageCount.
  destruct (_ - 2 <? 1); [lia |]. apply Z.le_max_l.
Qed.

Lemma maxScroll_nonneg (s : UI) : 0 <= maxScroll s.
Proof. apply Z.le_max_l. Qed.

Lemma maxScroll_set_scroll (s : UI) pos mode :
  maxScroll (set_scroll s pos mode) = maxScroll s.
Proof. reflexivity. Qed.

Lemma onKey_frame (k : ScrollKey) (s : UI) :
  messages (onKey k s) = messages s ∧ users (onKey k s) = users s
  ∧ updateStatus (onKey k s) = updateStatus s
  ∧ termHeight (onKey k s) = termHeight s.
Proof.
  destruct k; simpl;
    unfold scrollUp, scrollDown, scrollPageUp, scrollPageDown,
      scrollToTop, scrollToBottom;
    repeat match goal with |- context [if ?b then _ else _] => destruct b end;
    simpl; auto.
Qed.

Lemma maxScroll_onKey (k : ScrollKey) (s : UI) : maxScroll (onKey k s) = maxScroll s.
Proof.
  destruct (onKey_frame k s) as (Hm & _ & Hu & Hh).
  unfold maxScroll, messages_length, getVisibleMessageCount.
  by rewrite Hm, Hu, Hh.
Qed.

Lemma onKey_bounds (k : ScrollKey) (s : UI) :
  scroll_bounds s → scroll_bounds (onKey k s).
Proof.
  unfold scroll_bounds. intros Hs. rewrite maxScroll_onKey.
  pose proof (maxScroll_nonneg s) as Hmax.
  pose proof (getVisibleMessageCount_min s) as Hvis.
  destruct k; simpl;
    unfold scrollUp, scrollDown, scrollPageUp, scrollPageDown,
      scrollToTop, scrollToBottom.
  - destruct (Z.ltb_spec (scrollPosition s) (maxScroll s)); simpl; lia.
  - destruct (Z.ltb_spec 0 (scrollPosition s)); simpl; lia.
  - simpl. lia.
  - simpl. lia.
  - simpl. lia.
  - simpl. lia.
Qed.

Lemma scrollToBottom_resets (s : UI) :
  scrollPosition (scrollToBottom s) = 0 ∧ viewMode (scrollToBottom s) = normal.
Proof. split; reflexivity. Qed.

Lemma scrollTrace_lookup_S (s : UI) (k : ScrollKey) (ks : list ScrollKey) (i : nat) :
  scrollTrace s (k :: ks) !! S i = scrollTrace (onKey k s) ks !! i.
Proof. reflexivity. Qed.

(** Every entry of the trace is the result of the call at the same place of
    the key sequence, applied to some state. *)
Lemma scrollTrace_lookup (ks : list ScrollKey) :
  ∀ (s : UI) (i : nat) (k : ScrollKey) (s' : UI),
    ks !! i = Some k → scrollTrace s ks !! i = Some s' →
    ∃ s0, s' = onKey k s0.
Proof.
  induction ks as [| k0 ks IH]; intros s i k s' Hk Hs'; [done |].
  destruct i as [| i]; simpl in *.
  - injection Hk as ->. injection Hs' as <-. by exists s.
  - eauto.
Qed.

(** C1. Starting from a scroll state within its bounds
    [0 <= scrollPosition <= maxScroll], where
    [maxScroll = max(0, messages.length - getVisibleMessageCount())], the
    bounds hold after every call of every finite sequence of [scrollUp],
    [scrollDown], [scrollPageUp], [scrollPageDown], [scrollToTop] and
    [scrollToBottom] calls, and the state after any [scrollToBottom] call
    has [scrollPosition = 0] and [viewMode = normal]. *)
Theorem scroll_bounds_invariant (s : UI) (ks : list ScrollKey) :
  scroll_bounds s →
  Forall scroll_bounds (scrollTrace s ks)
  ∧ (∀ (i : nat) (s' : UI),
        ks !! i = Some END → scrollTrace s ks !! i = Some s' →
        scrollPosition s' = 0 ∧ viewMode s' = normal).
Proof.
  intros Hs. split.
  - revert s Hs. induction ks as [| k ks IH]; intros s Hs; simpl.
    + constructor.
    + constructor; [by apply onKey_bounds |].
      apply IH. by apply onKey_bounds.
  - intros i s' Hk Hs'.
    destruct (scrollTrace_lookup ks s i END s' Hk Hs') as [s0 ->].
    apply scrollToBottom_resets.
Qed.

Lemma scroll_bounds_invariant_witness :
  scroll_bounds sampleUI
  ∧ Forall scroll_bounds
      (scrollTrace sampleUI [UP; PAGE_UP; HOME; DOWN; PAGE_DOWN; END; UP])
  ∧ (∀ (i : nat) (s' : UI),
        [UP; PAGE_UP; HOME; DOWN; PAGE_DOWN; END; UP] !! i = Some END →
        scrollTrace sampleUI [UP; PAGE_UP; HOME; DOWN; PAGE_DOWN; END; UP] !! i
          = Some s' →
        scrollPosition s' = 0 ∧ viewMode s' = normal).
Proof.
  assert (H : scroll_bounds sampleUI) by (vm_compute; split; discriminate).
  split; [exact H |].
  exact (scroll_bounds_invariant sampleUI
           [UP; PAGE_UP; HOME; DOWN; PAGE_DOWN; END; UP] H).
Defined.

(** [scrollUp], [scrollDown], [scrollPageDown] and [scrollToBottom] keep
    mode and position in agreement. *)
Lemma guarded_keys_mode_agrees (k : ScrollKey) (s : UI) :
  k ≠ HOME → k ≠ PAGE_UP →
  scroll_bounds s → mode_agrees s → mode_agrees (onKey k s).
Proof.
  unfold mode_agrees, scroll_bounds. intros Hh Hp Hb [Hn Hsc].
  pose proof (getVisibleMessageCount_min s) as Hvis.
  assert (Hcase : viewMode s = normal ∧ scrollPosition s = 0
                  ∨ viewMode s = scrolling ∧ 0 < scrollPosition s).
  { destruct (viewMode s); [left | right]; split; try done; tauto. }
  clear Hn Hsc.
  destruct k; try done; simpl;
    unfold scrollUp, scrollDown, scrollPageDown, scrollToBottom;
    repeat match goal with
           | |- context [if ?a <? ?b then _ else _] => destruct (Z.ltb_spec a b)
           | |- context [if ?a =? ?b then _ else _] => destruct (Z.eqb_spec a b)
           end;
    simpl; destruct Hcase as [[Hv Hpos] | [Hv Hpos]]; rewrite ?Hv;
    split; split; intros; try done; try lia.
Qed.

(** [scrollToTop] and [scrollPageUp] set the mode to scrolling whatever the
    resulting position is. *)
Lemma scrollToTop_mode (s : UI) :
  viewMode (scrollToTop s) = scrolling ∧ scrollPosition (scrollToTop s) = maxScroll s.
Proof. split; reflexivity. Qed.

Lemma scrollPageUp_mode (s : UI) : viewMode (scrollPageUp s) = scrolling.
Proof. reflexivity. Qed.

(** C2, at its failing input: with an empty log in a 24-row terminal
    [maxScroll] is 0, and [scrollToTop] (as [scrollPageUp]) leaves
    [scrollPosition = 0] with [viewMode = scrolling], so mode and position
    disagree after the call. *)
Theorem scrollToTop_empty_log_scrolling :
  mode_agrees (constructor 24)
  ∧ maxScroll (constructor 24) = 0
  ∧ scrollPosition (scrollToTop (constructor 24)) = 0
  ∧ viewMode (scrollToTop (constructor 24)) = scrolling
  ∧ scrollPosition (scrollPageUp (constructor 24)) = 0
  ∧ viewMode (scrollPageUp (constructor 24)) = scrolling
  ∧ ¬ mode_agrees (scrollToTop (constructor 24))
  ∧ ¬ mode_agrees (scrollPageUp (constructor 24)).
Proof.
  repeat split; try reflexivity; try (simpl; intros; (done || lia)).
  - intros [[_ H] _]. by specialize (H eq_refl).
  - intros [[_ H] _]. by specialize (H eq_refl).
Qed.

(** C10. Every scroll method leaves the message log and the roster as they
    were (the update notice and the terminal height as well): only
    [scrollPosition] and [viewMode] may change, after one call and after
    any sequence of calls. *)
Theorem scroll_frame (s : UI) (k : ScrollKey) (ks : list ScrollKey) :
  (messages (onKey k s) = messages s ∧ users (onKey k s) = users s)
  ∧ Forall (λ s', messages s' = messages s ∧ users s' = users s)
      (scrollTrace s ks)
  ∧ onKey k s = set_scroll s (scrollPosition (onKey k s)) (viewMode (onKey k s)).
Proof.
  split; [| split].
  - destruct (onKey_frame k s) as (? & ? & _); auto.
  - clear k. revert s. induction ks as [| k ks IH]; intros s; simpl; [constructor |].
    destruct (onKey_frame k s) as (Hm & Hu & _).
    constructor; [auto |]. rewrite <- Hm, <- Hu. apply IH.
  - destruct (onKey_frame k s) as (Hm & Hu & Hs & Hh).
    destruct (onKey k s) as [m u us v p h]; simpl in *. subst.
    by destruct s.
Qed.

(** ** Message log *)

Lemma trimMessages_within (s : UI) :
  (length (messages s) ≤ maxMessages)%nat → trimMessages s = s.
Proof.
  intros H. unfold trimMessages.
  destruct (Nat.ltb_spec maxMessages (length (messages s))); [lia | done].
Qed.

(** What [trimMessages] does to any state; [k] is the number of records in
    excess of the capacity. *)
Lemma trimMessages_spec (s : UI) :
  let k := (length (messages s) - maxMessages)%nat in
  messages (trimMessages s) = drop k (messages s)
  ∧ length (messages (trimMessages s)) = (length (messages s) `min` maxMessages)%nat
  ∧ scrollPosition (trimMessages s)
    = (if 0 <? scrollPosition s then Z.max 0 (scrollPosition s - Z.of_nat k)
       else scrollPosition s)
  ∧ viewMode (trimMessages s)
    = (if (0 <? scrollPosition s) && (scrollPosition s - Z.of_nat k <=? 0)
          && bool_decide (k ≠ O)
       then normal else viewMode s)
  ∧ users (trimMessages s) = users s
  ∧ updateStatus (trimMessages s) = updateStatus s
  ∧ termHeight (trimMessages s) = termHeight s.
Proof.
  intros k. unfold trimMessages.
  destruct (Nat.ltb_spec maxMessages (length (messages s))) as [Hlt | Hge].
  - fold k. assert (Hk : k ≠ O) by (unfold k; lia).
    rewrite (bool_decide_eq_true_2 _ Hk), andb_true_r.
    destruct (Z.ltb_spec 0 (scrollPosition s)) as [Hpos | Hpos]; simpl.
    + rewrite length_drop.
      destruct (Z.eqb_spec (Z.max 0 (scrollPosition s - Z.of_nat k)) 0),
        (Z.leb_spec (scrollPosition s - Z.of_nat k) 0);
        repeat split; try done; unfold k; lia.
    + rewrite length_drop. repeat split; try done; unfold k; lia.
  - assert (Hk : k = O) by (unfold k; lia). rewrite Hk, drop_0.
    rewrite bool_decide_eq_false_2 by auto. rewrite andb_false_r.
    replace (scrollPosition s - Z.of_nat 0) with (scrollPosition s) by lia.
    destruct (Z.ltb_spec 0 (scrollPosition s)); repeat split; try done; lia.
Qed.

(** C5. An append ([push] then [trimMessages]) to any log never leaves more
    than 500 records: the [k] records in excess of 500 are dropped from the
    front, the survivors are the most recent 500 in their order, and
    [scrollPosition] becomes [max(0, scrollPosition - k)], with [viewMode]
    set to normal when the position reaches 0 and left alone otherwise. *)
Theorem append_capacity (s : UI) (m : Message) :
  0 <= scrollPosition s →
  let s1 := push m s in
  let s' := trimMessages s1 in
  let k := (length (messages s1) - 500)%nat in
  (length (messages s') ≤ 500)%nat
  ∧ messages s' = drop k (messages s1)
  ∧ length (messages s') = (length (messages s1) `min` 500)%nat
  ∧ scrollPosition s' = Z.max 0 (scrollPosition s - Z.of_nat k)
  ∧ (scrollPosition s' = 0 →
     0 < scrollPosition s ∨ viewMode s = normal → viewMode s' = normal)
  ∧ (0 < scrollPosition s' → viewMode s' = viewMode s)
  ∧ users s' = users s.
Proof.
  intros Hpos s1 s' k.
  destruct (trimMessages_spec s1) as (Hm & Hl & Hp & Hv & Hu & _).
  change (length (messages s1) - maxMessages)%nat with k in *.
  change (scrollPosition s1) with (scrollPosition s) in *.
  change (viewMode s1) with (viewMode s) in *.
  change (users s1) with (users s) in *.
  fold s' in Hm, Hl, Hp, Hv, Hu. unfold maxMessages in Hl.
  assert (Hp' : scrollPosition s' = Z.max 0 (scrollPosition s - Z.of_nat k)).
  { rewrite Hp. destruct (Z.ltb_spec 0 (scrollPosition s)); lia. }
  repeat split; try done.
  - lia.
  - intros H0 Hor. rewrite Hv.
    destruct (Z.ltb_spec 0 (scrollPosition s)) as [Hlt | Hle]; simpl.
    + destruct (Z.leb_spec (scrollPosition s - Z.of_nat k) 0); simpl.
      * case_bool_decide as Hk; [done |].
        assert (k = O) by (destruct k; [done | by contradict Hk]). lia.
      * lia.
    + destruct Hor; [lia | done].
  - intros Hgt. rewrite Hv.
    destruct (Z.ltb_spec 0 (scrollPosition s)); simpl; [| done].
    destruct (Z.leb_spec (scrollPosition s - Z.of_nat k) 0); simpl; [lia | done].
Qed.

(** Every method that adds a record keeps the log within the capacity. *)
Lemma add_methods_capacity (d : Date) (nm txt : str) (t : option Z) (s : UI) :
  (length (messages (addSystemMessage d txt s)) ≤ 500)%nat
  ∧ (length (messages (addErrorMessage d txt s)) ≤ 500)%nat
  ∧ (length (messages (addInfoMessage d txt s)) ≤ 500)%nat
  ∧ (length (messages (addPendingMessage d txt s)) ≤ 500)%nat
  ∧ (length (messages (addChatMessage d nm txt t s)) ≤ 500)%nat.
Proof.
  unfold addSystemMessage, addErrorMessage, addInfoMessage, addPendingMessage,
    addChatMessage, scrollToBottom; simpl.
  repeat split;
    match goal with
    | |- context [trimMessages ?x] =>
        destruct (trimMessages_spec x) as (_ & -> & _); unfold maxMessages; lia
    end.
Qed.

(** The bounds are also what every event keeps, so every state reached
    from the constructor is within them. *)
Lemma trimMessages_bounds (s : UI) (ms : list Message) :
  (length (messages s) ≤ length ms)%nat →
  scroll_bounds s → scroll_bounds (trimMessages (set_messages s ms)).
Proof.
  unfold scroll_bounds. intros Hlen Hs.
  destruct (trimMessages_spec (set_messages s ms)) as (_ & Hl & Hp & _ & _ & Hu & Hh).
  unfold maxScroll, messages_length, getVisibleMessageCount in *.
  rewrite Hl, Hp, Hu, Hh. cbn [set_messages messages scrollPosition updateStatus termHeight].
  unfold maxMessages.
  destruct (Z.ltb_spec 0 (scrollPosition s)); lia.
Qed.

Lemma handle_bounds (s : UI) (e : Event) :
  scroll_bounds s → scroll_bounds (handle s e).
Proof.
  intros Hs. destruct e; simpl.
  - by apply onKey_bounds.
  - unfold onResize. case_bool_decide.
    + split; [done | apply maxScroll_nonneg].
    + unfold adjustScrollPositionForResize, scroll_bounds in *. simpl.
      rewrite maxScroll_set_scroll.
      match goal with |- context [maxScroll ?x] => pose proof (maxScroll_nonneg x) end.
      lia.
  - apply (trimMessages_bounds s); [rewrite length_app; lia | done].
  - apply (trimMessages_bounds s); [rewrite length_app; lia | done].
  - apply (trimMessages_bounds s); [rewrite length_app; lia | done].
  - unfold addChatMessage.
    destruct (searchPending (messages s) txt (length (messages s))).
    + apply (trimMessages_bounds s); [by rewrite length_insert | done].
    + apply (trimMessages_bounds s); [rewrite length_app; lia | done].
  - split; [done | apply maxScroll_nonneg].
  - done.
  - done.
Qed.

Lemma reachable_bounds (height : Z) (es : list Event) :
  scroll_bounds (fold_left handle es (constructor height)).
Proof.
  assert (H0 : scroll_bounds (constructor height))
    by (split; [done | apply maxScroll_nonneg]).
  revert H0. generalize (constructor height).
  induction es as [| e es IH]; intros s Hs; [done |].
  simpl. apply IH. by apply handle_bounds.
Qed.

Lemma searchPending_Some (ms : list Message) (txt : str) (n i : nat) :
  searchPending ms txt n = Some i →
  (i < n)%nat
  ∧ (∃ p, ms !! i = Some p ∧ type p = pending ∧ text p = txt)
  ∧ (∀ j p, (i < j < n)%nat → ms !! j = Some p →
            ¬ (type p = pending ∧ text p = txt)).
Proof.
  induction n as [| n IH]; simpl; [done |].
  destruct (ms !! n) as [m |] eqn:Hn.
  - destruct (bool_decide (type m = pending) && bool_decide (text m = txt)) eqn:Hb.
    + intros [= <-]. apply andb_true_iff in Hb as [H1 H2].
      apply bool_decide_eq_true in H1, H2.
      split; [lia |]. split; [eauto |]. intros j p Hj. lia.
    + intros H. destruct (IH H) as (Hi & Hp & Hlater).
      split; [lia |]. split; [done |]. intros j p Hj Hjp.
      destruct (decide (j = n)) as [-> | Hne].
      * rewrite Hn in Hjp. injection Hjp as <-. intros [H1 H2].
        rewrite (bool_decide_eq_true_2 _ H1), (bool_decide_eq_true_2 _ H2) in Hb.
        done.
      * apply (Hlater j p); [lia | done].
  - intros H. destruct (IH H) as (Hi & Hp & Hlater).
    split; [lia |]. split; [done |]. intros j p Hj Hjp.
    destruct (decide (j = n)) as [-> | Hne]; [congruence |].
    apply (Hlater j p); [lia | done].
Qed.

Lemma searchPending_None (ms : list Message) (txt : str) (n : nat) :
  searchPending ms txt n = None →
  ∀ j p, (j < n)%nat → ms !! j = Some p → ¬ (type p = pending ∧ text p = txt).
Proof.
  induction n as [| n IH]; simpl; [intros; lia |].
  destruct (ms !! n) as [m |] eqn:Hn.
  - destruct (bool_decide (type m = pending) && bool_decide (text m = txt)) eqn:Hb;
      [done |].
    intros H j p Hj Hjp. destruct (decide (j = n)) as [-> | Hne].
    + rewrite Hn in Hjp. injection Hjp as <-. intros [H1 H2].
      rewrite (bool_decide_eq_true_2 _ H1), (bool_decide_eq_true_2 _ H2) in Hb.
      done.
    + apply (IH H j p); [lia | done].
  - intros H j p Hj Hjp. destruct (decide (j = n)) as [-> | Hne]; [congruence |].
    apply (IH H j p); [lia | done].
Qed.

(** The search finds a given pending record when no later pending record
    carries the same text. *)
Lemma searchPending_finds (ms : list Message) (txt : str) (i : nat) (p : Message) :
  ms !! i = Some p → type p = pending → text p = txt →
  (∀ j q, (i < j)%nat → ms !! j = Some q → ¬ (type q = pending ∧ text q = txt)) →
  searchPending ms txt (length ms) = Some i.
Proof.
  intros Hi Ht Htxt Hlast.
  destruct (searchPending ms txt (length ms)) as [i' |] eqn:Hs.
  - destruct (searchPending_Some _ _ _ _ Hs) as (Hlt & (q & Hq & Hqt & Hqx) & Hlater).
    pose proof (lookup_lt_Some _ _ _ Hi) as Hil.
    destruct (Nat.lt_trichotomy i i') as [H | [-> | H]]; [| done |].
    + exfalso. by apply (Hlast i' q).
    + exfalso. apply (Hlater i p); [lia | done | done].
  - exfalso. pose proof (lookup_lt_Some _ _ _ Hi) as Hil.
    by apply (searchPending_None _ _ _ Hs i p).
Qed.

Lemma append_capacity_witness :
  0 <= scrollPosition fullUI
  ∧ length (messages (trimMessages (push pendingHi fullUI))) = 500%nat
  ∧ messages (trimMessages (push pendingHi fullUI))
    = drop 1 (messages (push pendingHi fullUI))
  ∧ scrollPosition (trimMessages (push pendingHi fullUI)) = 49
  ∧ viewMode (trimMessages (push pendingHi fullUI)) = scrolling.
Proof.
  assert (H : 0 <= scrollPosition fullUI) by (simpl; lia).
  destruct (append_capacity fullUI pendingHi H) as (_ & Hm & Hl & Hp & _ & Hv & _).
  split; [exact H |].
  split; [exact Hl |].
  split; [exact Hm |].
  split; [exact Hp |].
  apply Hv. rewrite Hp. simpl. lia.
Defined.

(** A drop of 100 records takes a scroll position of 50 to 0 and the view
    back to normal mode. *)
Example trim_clamps_scroll :
  length (messages (trimMessages (push pendingHi overfullUI))) = 500%nat
  ∧ scrollPosition (trimMessages (push pendingHi overfullUI)) = 0
  ∧ viewMode (trimMessages (push pendingHi overfullUI)) = normal.
Proof. by vm_compute. Qed.

(** C4, as stated, fails on a full log: with 500 records and no pending
    match the confirmation is appended and the oldest record is trimmed
    away, so the length does not grow. *)
Lemma confirm_full_log_counterexample :
  ¬ (∀ (d : Date) (nm txt : str) (t : option Z) (s : UI),
        searchPending (messages s) txt (length (messages s)) = None →
        length (messages (addChatMessage d nm txt t s))
        = S (length (messages s))).
Proof.
  intros H.
  specialize (H sampleDate (lit "alice") (lit "hi") None fullUI).
  vm_compute in H. specialize (H eq_refl). discriminate H.
Qed.

(** C4, amended. For a log within its capacity, [addChatMessage] searches
    from the newest record backward for the most recent pending record with
    the confirmed text.  If there is one, it is replaced in place by a chat
    record with the confirmed name and time, the length is unchanged and
    every other record is untouched.  If there is none, the chat record is
    appended: below 500 records the length grows by exactly 1 and the other
    records are untouched; at 500 records the oldest record is dropped and
    the length stays 500. *)
Theorem confirm_replaces_or_appends (d : Date) (nm txt : str) (t : option Z) (s : UI) :
  (length (messages s) ≤ 500)%nat →
  let s' := addChatMessage d nm txt t s in
  let c := chatRecord d nm txt t in
  (type c = chat ∧ name c = Some nm ∧ text c = txt ∧ timestamp c = chatTime d t)
  ∧ match searchPending (messages s) txt (length (messages s)) with
    | Some i =>
        (∃ p, messages s !! i = Some p ∧ type p = pending ∧ text p = txt)
        ∧ (∀ j q, (i < j)%nat → messages s !! j = Some q →
                  ¬ (type q = pending ∧ text q = txt))
        ∧ messages s' = <[i := c]> (messages s)
        ∧ messages s' !! i = Some c
        ∧ length (messages s') = length (messages s)
        ∧ (∀ j, j ≠ i → messages s' !! j = messages s !! j)
    | None =>
        (∀ q, q ∈ messages s → ¬ (type q = pending ∧ text q = txt))
        ∧ ((length (messages s) < 500)%nat →
           messages s' = messages s ++ [c]
           ∧ length (messages s') = S (length (messages s)))
        ∧ (length (messages s) = 500%nat →
           messages s' = drop 1 (messages s) ++ [c]
           ∧ length (messages s') = 500%nat)
    end.
Proof.
  intros Hcap s' c. split; [done |].
  subst s' c. unfold addChatMessage.
  destruct (searchPending (messages s) txt (length (messages s))) as [i |] eqn:Hs.
  - destruct (searchPending_Some _ _ _ _ Hs) as (Hi & Hp & Hlater).
    rewrite trimMessages_within by (simpl; rewrite length_insert; exact Hcap).
    simpl.
    split; [done |].
    split.
    { intros j q Hj Hq. apply (Hlater j q); [| done].
      split; [done |]. by apply lookup_lt_Some in Hq. }
    split; [done |].
    split; [by apply list_lookup_insert_eq |].
    split; [by rewrite length_insert |].
    intros j Hj. by apply list_lookup_insert_ne.
  - split.
    { intros q Hq [Hty Htx]. apply list_elem_of_lookup in Hq as [j Hj].
      apply (searchPending_None _ _ _ Hs j q); [| done | done].
      by apply lookup_lt_Some in Hj. }
    split.
    + intros Hlt. rewrite trimMessages_within
        by (simpl; rewrite length_app; simpl; unfold maxMessages; lia).
      simpl. split; [done |]. rewrite length_app. simpl. lia.
    + intros Heq.
      destruct (trimMessages_spec (push (chatRecord d nm txt t) s)) as (Hm & Hl & _).
      cbn [push set_messages messages] in Hm, Hl.
      rewrite length_app, Heq in Hm, Hl.
      replace (500 + length [chatRecord d nm txt t] - maxMessages)%nat with 1%nat in Hm
        by (unfold maxMessages; simpl; lia).
      split; [| rewrite Hl; unfold maxMessages; simpl; lia].
      rewrite Hm, drop_app_le by lia. done.
Qed.

Lemma confirm_replaces_or_appends_witness :
  (length (messages pendingUI) ≤ 500)%nat
  ∧ messages (addChatMessage sampleDate (lit "alice") (lit "hi") None pendingUI)
    = [sampleRecord; chatRecord sampleDate (lit "alice") (lit "hi") None; sampleRecord]
  ∧ length (messages (addChatMessage sampleDate (lit "alice") (lit "yo") None pendingUI))
    = 4%nat.
Proof.
  assert (H : (length (messages pendingUI) ≤ 500)%nat) by (simpl; lia).
  pose proof (confirm_replaces_or_appends sampleDate (lit "alice") (lit "hi") None
                pendingUI H) as [_ H1].
  pose proof (confirm_replaces_or_appends sampleDate (lit "alice") (lit "yo") None
                pendingUI H) as [_ H2].
  split; [exact H |]. split.
  - destruct (searchPending (messages pendingUI) (lit "hi")
                (length (messages pendingUI))) as [i |] eqn:E; [| discriminate E].
    injection E as <-. destruct H1 as (_ & _ & -> & _). reflexivity.
  - destruct (searchPending (messages pendingUI) (lit "yo")
                (length (messages pendingUI))) as [i |] eqn:E; [discriminate E |].
    destruct H2 as (_ & H2 & _). apply H2. simpl. lia.
Defined.

(** C3, as stated, fails: the pending echo of "hi" carries the name "You";
    a confirmation of "hi" sent by "bob" replaces it all the same. *)
Lemma confirm_other_sender_counterexample :
  ¬ (∀ (d : Date) (nm txt : str) (t : option Z) (s : UI) (i : nat) (p : Message),
        messages s !! i = Some p → type p = pending → text p = txt →
        name p ≠ Some nm →
        messages (addChatMessage d nm txt t s) !! i = Some p).
Proof.
  intros H.
  specialize (H sampleDate (lit "bob") (lit "hi") None pendingUI 1%nat pendingHi
                eq_refl eq_refl eq_refl).
  assert (Hne : name pendingHi ≠ Some (lit "bob")) by discriminate.
  specialize (H Hne). vm_compute in H. discriminate H.
Qed.

(** C3, amended. A confirmation is matched to a pending record by text
    alone: the most recent pending record with the confirmed text is
    replaced in place by the chat record of the confirmation, whatever name
    the pending record carries and whoever sent the confirmation. *)
Theorem confirm_matches_by_text_alone (d : Date) (nm txt : str) (t : option Z)
    (s : UI) (i : nat) (p : Message) :
  (length (messages s) ≤ 500)%nat →
  messages s !! i = Some p → type p = pending → text p = txt →
  (∀ j q, (i < j)%nat → messages s !! j = Some q →
          ¬ (type q = pending ∧ text q = txt)) →
  messages (addChatMessage d nm txt t s) = <[i := chatRecord d nm txt t]> (messages s)
  ∧ messages (addChatMessage d nm txt t s) !! i = Some (chatRecord d nm txt t)
  ∧ name (chatRecord d nm txt t) = Some nm.
Proof.
  intros Hcap Hi Hty Htx Hlast.
  pose proof (searchPending_finds _ _ _ _ Hi Hty Htx Hlast) as Hs.
  unfold addChatMessage. rewrite Hs.
  rewrite trimMessages_within by (simpl; rewrite length_insert; exact Hcap).
  simpl. split; [done |]. split; [| done].
  apply list_lookup_insert_eq. by apply lookup_lt_Some in Hi.
Qed.

Lemma confirm_matches_by_text_alone_witness :
  name pendingHi ≠ Some (lit "bob")
  ∧ messages (addChatMessage sampleDate (lit "bob") (lit "hi") None pendingUI)
    = <[1%nat := chatRecord sampleDate (lit "bob") (lit "hi") None]> (messages pendingUI).
Proof.
  split; [discriminate |].
  refine (proj1 (confirm_matches_by_text_alone sampleDate (lit "bob") (lit "hi") None
                   pendingUI 1%nat pendingHi _ eq_refl eq_refl eq_refl _)).
  - simpl. lia.
  - intros j q Hj Hq.
    destruct j as [| [| [| j]]]; simpl in Hq; try lia; try discriminate Hq.
    injection Hq as <-. intros [Hty _]. discriminate Hty.
Defined.

(** ** Mention autocomplete *)

Lemma lastIndexOf_None (s : str) (c : ascii) : lastIndexOf s c = None ↔ c ∉ s.
Proof.
  induction s as [| a s IH]; simpl.
  - split; [intros _; apply not_elem_of_nil | done].
  - destruct (lastIndexOf s c) as [i |].
    + split; [done |]. intros Hn. exfalso.
      assert (c ∉ s) as Hs by (intros H; apply Hn; by right).
      apply IH in Hs. discriminate Hs.
    + case_bool_decide as Hac.
      * split; [done |]. intros Hn. exfalso. apply Hn. subst. left.
      * split; [| done]. intros _ Hin.
        apply elem_of_cons in Hin as [-> | Hin]; [done |].
        by apply (proj1 IH).
Qed.

Lemma lastIndexOf_Some (s : str) (c : ascii) (i : nat) :
  lastIndexOf s c = Some i →
  s !! i = Some c ∧ (∀ j, (i < j)%nat → s !! j ≠ Some c).
Proof.
  revert i. induction s as [| a s IH]; intros i; simpl; [done |].
  destruct (lastIndexOf s c) as [i' |] eqn:Hl.
  - intros [= <-]. destruct (IH i' eq_refl) as [Hi Hlater].
    split; [done |]. intros [| j] Hj; [lia |]. simpl. apply Hlater. lia.
  - case_bool_decide as Hac; [| done]. intros [= <-]. subst a.
    split; [done |]. intros [| j] Hj; [lia |]. simpl. intros Hin.
    apply (proj1 (lastIndexOf_None s c) Hl).
    apply list_elem_of_lookup. eauto.
Qed.

Lemma startsWith_prefix (s p : str) : startsWith s p = true ↔ p `prefix_of` s.
Proof.
  revert s. induction p as [| b p IH]; intros s.
  - split; [intros _; apply prefix_nil | by destruct s].
  - destruct s as [| a s]; simpl.
    + split; [done |]. intros H. by apply prefix_nil_not in H.
    + rewrite andb_true_iff, bool_decide_eq_true, IH. split.
      * intros [-> H]. by apply prefix_cons.
      * intros H. split; [by apply prefix_cons_inv_1 in H |].
        by apply prefix_cons_inv_2 in H.
Qed.

(** C9. With [i] the place of the last ['@'] of the input, the suggestions
    are the roster names, in roster order, whose lowercase form starts with
    the lowercased text after that ['@'], each prefixed by the input up to
    and including the ['@']; an input without ['@'], the empty input
    included, yields no suggestion. *)
Theorem handleAutoComplete_spec (s : UI) (input : str) :
  handleAutoComplete s [] = []
  ∧ match lastIndexOf input "@"%char with
    | Some i =>
        input !! i = Some "@"%char
        ∧ (∀ j, (i < j)%nat → input !! j ≠ Some "@"%char)
        ∧ handleAutoComplete s input
          = map (λ user, take (i + 1) input ++ user)
              (filter (λ user, toLowerCase (drop (i + 1) input)
                                 `prefix_of` toLowerCase user) (users s))
        ∧ (∀ user, (take (i + 1) input ++ user) ∈ handleAutoComplete s input
                   ↔ user ∈ users s
                     ∧ toLowerCase (drop (i + 1) input) `prefix_of` toLowerCase user)
    | None => ("@"%char ∉ input) ∧ handleAutoComplete s input = []
    end.
Proof.
  split; [reflexivity |].
  destruct (lastIndexOf input "@"%char) as [i |] eqn:Hl.
  - destruct (lastIndexOf_Some _ _ _ Hl) as [Hi Hlater].
    assert (Heq : handleAutoComplete s input
                  = map (λ user, take (i + 1) input ++ user)
                      (filter (λ user, toLowerCase (drop (i + 1) input)
                                         `prefix_of` toLowerCase user) (users s))).
    { unfold handleAutoComplete. destruct input as [| a input]; [done |].
      rewrite Hl. f_equal. apply list_filter_iff. intros user.
      apply startsWith_prefix. }
    split; [done |]. split; [done |]. split; [done |].
    intros user. rewrite Heq, list_elem_of_fmap. split.
    + intros (u & Hu & Hin). apply app_inv_head in Hu as ->.
      by apply list_elem_of_filter in Hin as [? ?].
    + intros [Hin Hp]. exists user. split; [done |].
      by apply list_elem_of_filter.
  - split; [by apply lastIndexOf_None |].
    unfold handleAutoComplete. destruct input; [done |]. by rewrite Hl.
Qed.

(** ** Style codes *)

Lemma sgr_params_bound (s : str) (n : nat) :
  sgr_params s = Some n → (1 ≤ n ≤ length s)%nat.
Proof.
  revert n. induction s as [| c s IH]; intros n; simpl; [done |].
  case_bool_decide; [intros [= <-]; lia |].
  destruct (is_param c); [| done].
  destruct (sgr_params s) as [m |]; [| done].
  intros [= <-]. specialize (IH m eq_refl). lia.
Qed.

Lemma sgr_match_bound (s : str) (n : nat) :
  sgr_match s = Some n → (1 ≤ n ≤ length s)%nat.
Proof.
  destruct s as [| e [| b s]]; simpl; try done.
  destruct (bool_decide (e = ESC) && bool_decide (b = "["%char)); [| done].
  destruct (sgr_params s) as [m |] eqn:Hm; [| done].
  intros [= <-]. apply sgr_params_bound in Hm. lia.
Qed.

Lemma sgr_match_not_ESC (c : ascii) (s : str) : c ≠ ESC → sgr_match (c :: s) = None.
Proof.
  intros Hc. destruct s as [| b s]; simpl; [done |].
  by rewrite (bool_decide_eq_false_2 _ Hc).
Qed.

Lemma sgr_params_app_space (a b : str) :
  sgr_params (a ++ " "%char :: b) = sgr_params a.
Proof.
  induction a as [| c a IH]; simpl; [done |].
  case_bool_decide; [done |]. destruct (is_param c); [| done]. by rewrite IH.
Qed.

Lemma sgr_match_app_space (a b : str) :
  sgr_match (a ++ " "%char :: b) = sgr_match a.
Proof.
  destruct a as [| e [| c a]]; simpl.
  - by destruct b.
  - by rewrite andb_false_r.
  - destruct (bool_decide (e = ESC) && bool_decide (c = "["%char)); [| done].
    by rewrite sgr_params_app_space.
Qed.

Lemma strip_skip_app_space (a b : str) :
  ∀ k, (k ≤ length a)%nat →
       strip_skip k (a ++ " "%char :: b)
       = strip_skip k a ++ " "%char :: strip_skip O b.
Proof.
  induction a as [| c a IH]; intros k Hk.
  - assert (k = O) as -> by (simpl in Hk; lia).
    cbn [app strip_skip]. by rewrite sgr_match_not_ESC.
  - destruct k as [| k].
    + change ((c :: a) ++ " "%char :: b) with (c :: (a ++ " "%char :: b)).
      cbn [strip_skip].
      change (c :: (a ++ " "%char :: b)) with ((c :: a) ++ " "%char :: b).
      rewrite sgr_match_app_space.
      destruct (sgr_match (c :: a)) as [n |] eqn:Hn.
      * apply sgr_match_bound in Hn. simpl in Hn. apply IH. lia.
      * simpl. f_equal. apply IH. lia.
    + simpl. apply IH. simpl in Hk. lia.
Qed.

(** Stripping works piece by piece across a space. *)
Lemma strip_app_space (a b : str) :
  stripAnsiCodes (a ++ " "%char :: b)
  = stripAnsiCodes a ++ " "%char :: stripAnsiCodes b.
Proof. apply strip_skip_app_space. lia. Qed.

Lemma strip_plain_app (x y : str) :
  ESC ∉ x → stripAnsiCodes (x ++ y) = x ++ stripAnsiCodes y.
Proof.
  unfold stripAnsiCodes. induction x as [| c x IH]; intros Hx; [done |].
  apply not_elem_of_cons in Hx as [Hc Hx].
  change ((c :: x) ++ y) with (c :: (x ++ y)). cbn [strip_skip].
  rewrite sgr_match_not_ESC by done. simpl. f_equal. by apply IH.
Qed.

Lemma strip_plain (x : str) : ESC ∉ x → stripAnsiCodes x = x.
Proof.
  intros Hx. rewrite <- (app_nil_r x) at 1.
  rewrite strip_plain_app by done. by rewrite app_nil_r.
Qed.


Lemma strip_gray_open (y : str) : stripAnsiCodes (sgr "90" ++ y) = stripAnsiCodes y.
Proof. reflexivity. Qed.

Lemma strip_fg_close (y : str) : stripAnsiCodes (sgr "39" ++ y) = stripAnsiCodes y.
Proof. reflexivity. Qed.

(** ** chalk *)

Lemma LF_not_ESC : LF ≠ ESC.
Proof. by vm_compute. Qed.

Lemma CR_not_ESC : CR ≠ ESC.
Proof. by vm_compute. Qed.

Lemma strip_cons (c : ascii) (z : str) :
  c ≠ ESC → stripAnsiCodes (c :: z) = c :: stripAnsiCodes z.
Proof.
  intros Hc. unfold stripAnsiCodes. cbn [strip_skip].
  by rewrite sgr_match_not_ESC.
Qed.

Lemma chalk_nil (level : nat) (stylers : list Styler) : chalk level stylers [] = [].
Proof.
  unfold chalk. rewrite (bool_decide_eq_true_2 ([] = [])) by done.
  by rewrite orb_true_r.
Qed.

(** With colours and a text to style, the text is put between the opening
    and the closing sequences once its own closing sequences are followed
    by a new opening and its line feeds are encased. *)
Lemma chalk_on (level : nat) (stylers : list Styler) (s : str) :
  (0 < level)%nat → s ≠ [] →
  chalk level stylers s
  = concat (open <$> stylers)
    ++ (if bool_decide
             (LF ∈ (if bool_decide (ESC ∈ s)
                    then fold_left (λ string styler,
                                      stringReplaceAll string (close styler)
                                        (open styler))
                           (reverse stylers) s
                    else s))
        then stringEncaseCRLF
               (if bool_decide (ESC ∈ s)
                then fold_left (λ string styler,
                                  stringReplaceAll string (close styler) (open styler))
                       (reverse stylers) s
                else s)
               (concat (close <$> reverse stylers)) (concat (open <$> stylers))
        else if bool_decide (ESC ∈ s)
             then fold_left (λ string styler,
                               stringReplaceAll string (close styler) (open styler))
                    (reverse stylers) s
             else s)
    ++ concat (close <$> reverse stylers).
Proof.
  intros Hl Hs. unfold chalk. destruct level as [| n]; [lia |].
  rewrite (bool_decide_eq_false_2 _ Hs). reflexivity.
Qed.

(** A text without escape characters and line feeds is only put between
    the sequences. *)
Lemma chalk_plain (level : nat) (stylers : list Styler) (s : str) :
  (0 < level)%nat → s ≠ [] → ESC ∉ s → LF ∉ s →
  chalk level stylers s
  = concat (open <$> stylers) ++ s ++ concat (close <$> reverse stylers).
Proof.
  intros Hl Hs He Hn. rewrite chalk_on by done.
  rewrite (bool_decide_eq_false_2 _ He). by rewrite (bool_decide_eq_false_2 _ Hn).
Qed.

(** Stripping removes what the encasing of line feeds has added. *)
Lemma strip_encase (prefix postfix : str) :
  (∀ z, stripAnsiCodes (prefix ++ z) = stripAnsiCodes z) →
  (∀ z, stripAnsiCodes (postfix ++ z) = stripAnsiCodes z) →
  ∀ (n : nat) (s y : str), (length s ≤ n)%nat → ESC ∉ s →
    stripAnsiCodes (stringEncaseCRLF s prefix postfix ++ y) = s ++ stripAnsiCodes y.
Proof.
  intros Hpre Hpost. induction n as [| n IH]; intros s y Hlen Hs.
  - destruct s; [done | simpl in Hlen; lia].
  - destruct s as [| c s]; [done |].
    apply not_elem_of_cons in Hs as [Hc Hs]. simpl in Hlen.
    cbn [stringEncaseCRLF]. case_bool_decide as HLF.
    + rewrite <- app_assoc, Hpre. cbn [app]. rewrite strip_cons by apply LF_not_ESC.
      rewrite <- app_assoc, Hpost. subst c. cbn [app]. f_equal.
      apply IH; [lia | done].
    + destruct s as [| d s].
      * cbn [app]. by rewrite strip_cons.
      * apply not_elem_of_cons in Hs as [Hd Hs]. simpl in Hlen.
        destruct (bool_decide (c = CR) && bool_decide (d = LF)) eqn:Hcr.
        -- apply andb_prop in Hcr as [H1 H2].
           apply bool_decide_eq_true_1 in H1, H2. subst c d.
           rewrite <- app_assoc, Hpre. cbn [app].
           rewrite (strip_cons CR) by apply CR_not_ESC.
           rewrite (strip_cons LF) by apply LF_not_ESC.
           rewrite <- app_assoc, Hpost. cbn [app]. do 2 f_equal.
           apply IH; [lia | done].
        -- cbn [app]. rewrite strip_cons by done. f_equal.
           apply IH; [simpl; lia | by apply not_elem_of_cons].
Qed.

(** Stripping a styled text without escape characters gives the text back,
    with or without colours. *)
Lemma chalk_strip (level : nat) (stylers : list Styler) (s y : str) :
  (∀ z, stripAnsiCodes (concat (open <$> stylers) ++ z) = stripAnsiCodes z) →
  (∀ z, stripAnsiCodes (concat (close <$> reverse stylers) ++ z) = stripAnsiCodes z) →
  ESC ∉ s →
  stripAnsiCodes (chalk level stylers s ++ y) = s ++ stripAnsiCodes y.
Proof.
  intros Ho Hc Hs.
  destruct level as [| n]; [by apply strip_plain_app |].
  destruct s as [| a s]; [by rewrite chalk_nil |].
  rewrite chalk_on by (done || lia).
  rewrite (bool_decide_eq_false_2 _ Hs).
  rewrite <- !app_assoc, Ho.
  case_bool_decide.
  - rewrite (strip_encase _ _ Hc Ho (length (a :: s))) by done. by rewrite Hc.
  - rewrite strip_plain_app by done. by rewrite Hc.
Qed.

Lemma chalk_strip_end (level : nat) (stylers : list Styler) (s : str) :
  (∀ z, stripAnsiCodes (concat (open <$> stylers) ++ z) = stripAnsiCodes z) →
  (∀ z, stripAnsiCodes (concat (close <$> reverse stylers) ++ z) = stripAnsiCodes z) →
  ESC ∉ s → stripAnsiCodes (chalk level stylers s) = s.
Proof.
  intros Ho Hc Hs. rewrite <- (app_nil_r (chalk level stylers s)).
  rewrite chalk_strip by done. apply app_nil_r.
Qed.

Lemma replace_scan_head (c e : ascii) (s sub rep : str) :
  c ≠ e →
  replace_scan O (c :: s) (e :: sub) rep = c :: replace_scan O s (e :: sub) rep.
Proof.
  intros H. cbn [replace_scan startsWith].
  by rewrite (bool_decide_eq_false_2 _ H).
Qed.

Lemma encase_head (c : ascii) (s p q : str) :
  c ≠ LF → c ≠ CR → stringEncaseCRLF (c :: s) p q = c :: stringEncaseCRLF s p q.
Proof.
  intros H1 H2. cbn [stringEncaseCRLF]. rewrite (bool_decide_eq_false_2 _ H1).
  destruct s as [| d s]; [done |]. by rewrite (bool_decide_eq_false_2 _ H2).
Qed.

(** With colours the gray bracketed timestamp is the opening sequence, the
    bracket, some text and the closing sequence, whatever the timestamp. *)
Lemma chalk_gray_bracket (level : nat) (t : str) :
  (0 < level)%nat →
  ∃ G, chalk_gray level ("["%char :: t) = sgr "90" ++ ("["%char :: G) ++ sgr "39".
Proof.
  intros Hl. unfold chalk_gray. rewrite chalk_on by done.
  assert (Ho : concat (open <$> [gray]) = sgr "90") by reflexivity.
  assert (Hc : concat (close <$> reverse [gray]) = sgr "39") by reflexivity.
  rewrite Ho, Hc.
  assert (HR : ∃ R,
             (if bool_decide (ESC ∈ "["%char :: t)
              then fold_left (λ string styler,
                                stringReplaceAll string (close styler) (open styler))
                     (reverse [gray]) ("["%char :: t)
              else "["%char :: t) = "["%char :: R).
  { case_bool_decide; [| by eexists].
    change (fold_left _ (reverse [gray]) ("["%char :: t))
      with (replace_scan O ("["%char :: t) (ESC :: lit "[39m") (sgr "90")).
    rewrite replace_scan_head by done. by eexists. }
  destruct HR as [R ->].
  case_bool_decide.
  - rewrite encase_head by done. by eexists.
  - by eexists.
Qed.

Lemma chalk_gray_head (level : nat) (t : str) :
  ∃ pre G, chalk_gray level ("["%char :: t) = pre ++ "["%char :: G
           ∧ ∀ z, stripAnsiCodes (pre ++ z) = stripAnsiCodes z.
Proof.
  destruct level as [| n].
  - by exists [], t.
  - destruct (chalk_gray_bracket (S n) t) as [G HG]; [lia |].
    exists (sgr "90"), (G ++ sgr "39"). split; [by rewrite HG | by intros].
Qed.

Lemma lit_plain_app (x y : str) : ESC ∉ x → ESC ∉ y → ESC ∉ x ++ y.
Proof. intros Hx Hy H. apply elem_of_app in H as [H | H]; done. Qed.

Lemma bracket_cons (msg : Message) :
  bracket msg = "["%char :: (timestamp msg ++ lit "]").
Proof. reflexivity. Qed.

Lemma bracket_plain (msg : Message) : ESC ∉ timestamp msg → ESC ∉ bracket msg.
Proof.
  intros Hts. unfold bracket. apply lit_plain_app; [| apply lit_plain_app; [done |]].
  - intros H. apply elem_of_cons in H as [H | H]; [done | by apply elem_of_nil in H].
  - intros H. apply elem_of_cons in H as [H | H]; [done | by apply elem_of_nil in H].
Qed.

(** The unstyled content of a record whose name and text hold no escape
    character. *)
Lemma content_plain (level : nat) (msg : Message) :
  ESC ∉ name_text msg → ESC ∉ text msg →
  stripAnsiCodes (content level msg)
  = match type msg with
    | chat => name_text msg ++ lit ": " ++ text msg
    | pending => name_text msg ++ lit ": " ++ text msg ++ lit " (sending...)"
    | _ => text msg
    end.
Proof.
  intros Hn Ht. unfold content.
  assert (Hcolon : ESC ∉ lit ": ").
  { intros H. apply elem_of_cons in H as [H | H]; [done |].
    apply elem_of_cons in H as [H | H]; [done | by apply elem_of_nil in H]. }
  destruct (type msg).
  - unfold chalk_green_bold.
    rewrite chalk_strip; [| by intros | by intros | done].
    f_equal. apply strip_plain. by apply lit_plain_app.
  - unfold chalk_gray. by apply chalk_strip_end.
  - unfold chalk_red. by apply chalk_strip_end.
  - unfold chalk_cyan. by apply chalk_strip_end.
  - unfold chalk_yellow_bold.
    rewrite chalk_strip; [| by intros | by intros | done].
    f_equal. rewrite strip_plain_app by done. f_equal.
    unfold chalk_gray at 1.
    rewrite chalk_strip; [| by intros | by intros | done].
    f_equal. by destruct level as [| n].
Qed.

(** The unstyled full message of a record whose fields hold no escape
    character. *)
Lemma fullMessage_plain (level : nat) (msg : Message) :
  ESC ∉ timestamp msg → ESC ∉ name_text msg → ESC ∉ text msg →
  stripAnsiCodes (fullMessage level msg)
  = lit "[" ++ timestamp msg ++ lit "] "
    ++ match type msg with
       | chat => name_text msg ++ lit ": " ++ text msg
       | pending => name_text msg ++ lit ": " ++ text msg ++ lit " (sending...)"
       | _ => text msg
       end.
Proof.
  intros Hts Hn Ht. unfold fullMessage.
  unfold chalk_gray at 1.
  rewrite chalk_strip; [| by intros | by intros | by apply bracket_plain].
  change (lit " " ++ content level msg) with ([" "%char] ++ content level msg).
  rewrite strip_plain_app
    by (intros H; apply elem_of_cons in H as [H | H]; [done | by apply elem_of_nil in H]).
  rewrite content_plain by done. unfold bracket. by rewrite <- !app_assoc.
Qed.

(** A style inside a style, and a text of two lines, as chalk returns
    them: the inner closing sequence is followed by the outer opening one,
    and the line feed stands between a closing and an opening sequence. *)
Example chalk_reopens_and_encases :
  chalk 1 [red] (lit "a" ++ chalk 1 [cyan] (lit "b") ++ lit "c")
  = sgr "31" ++ lit "a" ++ sgr "36" ++ lit "b" ++ sgr "39" ++ sgr "31" ++ lit "c"
    ++ sgr "39"
  ∧ chalk 1 [green; bold] (lit "a" ++ [LF] ++ lit "b")
    = sgr "32" ++ sgr "1" ++ lit "a" ++ sgr "22" ++ sgr "39" ++ [LF]
      ++ sgr "32" ++ sgr "1" ++ lit "b" ++ sgr "22" ++ sgr "39"
  ∧ chalk 0 [green; bold] (lit "a" ++ [LF] ++ lit "b") = lit "a" ++ [LF] ++ lit "b".
Proof. by vm_compute. Qed.

(** ** Line wrapper *)

Lemma format_fits (level : nat) (msg : Message) (maxWidth : Z) :
  plainLength (fullMessage level msg) <= maxWidth →
  formatMessageToLines level msg maxWidth = [fullMessage level msg].
Proof.
  intros H. unfold formatMessageToLines. unfold plainLength in H.
  by destruct (Z.leb_spec (Z.of_nat (length (stripAnsiCodes (fullMessage level msg))))
                 maxWidth); [| lia].
Qed.

(** C7. Take the styled line of a record: the gray bracketed timestamp, a
    space and the styled content of the record's kind.  When the unstyled
    length of that line is at most [maxWidth], [formatMessageToLines]
    returns that line and nothing else.  For a record whose fields hold no
    escape character the unstyled line is the bracketed timestamp, a space
    and the plain content of the kind, so that the record is returned on
    one line as soon as this plain text is at most [maxWidth] long: the
    style sequences are not counted. *)
Theorem fits_on_one_line (level : nat) (msg : Message) (maxWidth : Z) :
  let line :=
    chalk_gray level (lit "[" ++ timestamp msg ++ lit "]") ++ lit " "
      ++ match type msg with
         | chat => chalk_green_bold level (name_text msg) ++ lit ": " ++ text msg
         | system => chalk_gray level (text msg)
         | error => chalk_red level (text msg)
         | info => chalk_cyan level (text msg)
         | pending =>
             chalk_yellow_bold level (name_text msg) ++ lit ": "
               ++ chalk_gray level (text msg)
               ++ lit " " ++ chalk_gray level (lit "(sending...)")
         end in
  let plain :=
    lit "[" ++ timestamp msg ++ lit "] "
      ++ match type msg with
         | chat => name_text msg ++ lit ": " ++ text msg
         | pending => name_text msg ++ lit ": " ++ text msg ++ lit " (sending...)"
         | _ => text msg
         end in
  (plainLength line <= maxWidth → formatMessageToLines level msg maxWidth = [line])
  ∧ (ESC ∉ timestamp msg → ESC ∉ name_text msg → ESC ∉ text msg →
     stripAnsiCodes line = plain
     ∧ (Z.of_nat (length plain) <= maxWidth →
        formatMessageToLines level msg maxWidth = [line])).
Proof.
  intros line plain.
  assert (Hline : line = fullMessage level msg).
  { subst line. unfold fullMessage, content, bracket. by destruct (type msg). }
  split.
  - rewrite Hline. apply format_fits.
  - intros Hts Hn Ht.
    assert (Hplain : stripAnsiCodes line = plain).
    { rewrite Hline. by apply fullMessage_plain. }
    split; [done |]. intros Hfit.
    rewrite Hline. apply format_fits. unfold plainLength.
    rewrite <- Hline, Hplain. exact Hfit.
Qed.

Lemma fits_on_one_line_witness :
  Z.of_nat (length (lit "[10:00:00] joined")) <= 20
  ∧ 20 < Z.of_nat (length (sgr "90" ++ lit "[10:00:00]" ++ sgr "39" ++ lit " "
                             ++ sgr "90" ++ lit "joined" ++ sgr "39"))
  ∧ formatMessageToLines 1 sampleRecord 20
    = [sgr "90" ++ lit "[10:00:00]" ++ sgr "39" ++ lit " "
       ++ sgr "90" ++ lit "joined" ++ sgr "39"].
Proof.
  assert (Hplain : ∀ s : string,
             forallb (λ c, negb (bool_decide (c = ESC))) (lit s) = true → ESC ∉ lit s).
  { intros s Hs Hin. rewrite forallb_forall in Hs.
    apply list_elem_of_In in Hin. specialize (Hs _ Hin).
    by rewrite bool_decide_eq_true_2 in Hs. }
  assert (H : Z.of_nat (length (lit "[10:00:00] joined")) <= 20)
    by (vm_compute; discriminate).
  split; [exact H |]. split; [by vm_compute |].
  exact (proj2 (proj2 (fits_on_one_line 1 sampleRecord 20)
                  (Hplain "10:00:00"%string eq_refl)
                  (Hplain "undefined"%string eq_refl)
                  (Hplain "joined"%string eq_refl)) H).
Defined.

Lemma fullMessage_plain_length (level : nat) (msg : Message) :
  (2 ≤ length (stripAnsiCodes (fullMessage level msg)))%nat.
Proof.
  unfold fullMessage. rewrite bracket_cons.
  destruct (chalk_gray_head level (timestamp msg ++ lit "]")) as (pre & G & -> & Hpre).
  change (lit " " ++ content level msg) with (" "%char :: content level msg).
  rewrite strip_app_space, Hpre, strip_cons by done.
  rewrite length_app. simpl. lia.
Qed.

(** At widths of at most 1 no word ever fits: every word opens a new line. *)
Lemma wrapWord_narrow (level : nat) (ts : str) (maxWidth : Z) (w : Wrap) (word : str) :
  maxWidth <= 1 → (2 ≤ length (currentPlainLine w))%nat →
  wrapWord level ts maxWidth w word
  = {| lines := pushLine level ts w;
       currentLine := chalk_gray level (indent ts) ++ word;
       currentPlainLine := indent ts ++ stripAnsiCodes word |}.
Proof.
  intros Hw Hlen. unfold wrapWord.
  match goal with
  | |- context [Z.of_nat (length ?t) <=? maxWidth] =>
      destruct (Z.leb_spec (Z.of_nat (length t)) maxWidth) as [Hfit | Hno]
  end; [| done].
  rewrite length_app in Hfit. lia.
Qed.

Lemma wrapWords_narrow (level : nat) (ts : str) (maxWidth : Z) (words : list str) :
  maxWidth <= 1 →
  ∀ w : Wrap, (2 ≤ length (currentPlainLine w))%nat →
    fold_left (wrapWord level ts maxWidth) words w
    = fold_left (wrapWord level ts 1) words w.
Proof.
  intros Hw. induction words as [| word words IH]; intros w Hlen; [done |].
  simpl. rewrite (wrapWord_narrow level ts maxWidth), (wrapWord_narrow level ts 1)
    by (done || lia).
  apply IH. simpl. rewrite length_app. unfold indent. rewrite length_replicate. lia.
Qed.

(** C8. For every record, every width [maxWidth <= 0] and with or without
    colours the lines are those of width 1: no plain rendering is shorter
    than two characters, so at any width below 2 every word is put on a
    line of its own. *)
Theorem nonpositive_width_as_one (level : nat) (msg : Message) (maxWidth : Z) :
  maxWidth <= 0 →
  formatMessageToLines level msg maxWidth = formatMessageToLines level msg 1.
Proof.
  intros Hw. unfold formatMessageToLines.
  pose proof (fullMessage_plain_length level msg) as Hlen.
  destruct (Z.leb_spec (Z.of_nat (length (stripAnsiCodes (fullMessage level msg))))
              maxWidth); [lia |].
  destruct (Z.leb_spec (Z.of_nat (length (stripAnsiCodes (fullMessage level msg)))) 1);
    [lia |].
  unfold wrapWords. rewrite (wrapWords_narrow _ _ maxWidth); [done | lia |].
  cbn [wrapStart currentPlainLine]. rewrite length_app. simpl. lia.
Qed.

Lemma nonpositive_width_as_one_witness :
  -3 <= 0
  ∧ formatMessageToLines 1 pendingHi (-3) = formatMessageToLines 1 pendingHi 1.
Proof.
  assert (H : -3 <= 0) by lia.
  split; [exact H |].
  exact (nonpositive_width_as_one 1 pendingHi (-3) H).
Defined.

(** *** Splitting and joining at spaces *)

Lemma split_space_nonempty (s : str) : split_space s ≠ [].
Proof.
  induction s as [| c s IH]; simpl; [done |].
  case_bool_decide; [done |]. by destruct (split_space s).
Qed.








(** *** [trim] *)

Lemma trimStart_suffix (s : str) : ∃ p, s = p ++ trimStart s.
Proof.
  induction s as [| c s [p IH]]; simpl; [by exists [] |].
  destruct (is_white_space c).
  - exists (c :: p). simpl. by rewrite <- IH.
  - by exists [].
Qed.

Lemma trimEnd_prefix (s : str) : ∃ r, s = trimEnd s ++ r.
Proof.
  unfold trimEnd. destruct (trimStart_suffix (rev s)) as [p Hp].
  exists (rev p). rewrite <- rev_app_distr, <- Hp. by rewrite rev_involutive.
Qed.

Lemma trimStart_keeps (a b : str) (c : ascii) :
  c ∈ a → is_white_space c = false →
  (length b < length (trimStart (a ++ b)))%nat.
Proof.
  intros Hin Hc. induction a as [| c0 a IH]; [by apply elem_of_nil in Hin |].
  simpl. destruct (is_white_space c0) eqn:Hc0.
  - apply elem_of_cons in Hin as [-> | Hin]; [congruence | by apply IH].
  - simpl. rewrite length_app. lia.
Qed.

Lemma trimEnd_keeps (p q : str) (c : ascii) :
  c ∈ q → is_white_space c = false →
  (length p < length (trimEnd (p ++ q)))%nat.
Proof.
  intros Hin Hc. unfold trimEnd. rewrite length_rev, rev_app_distr.
  rewrite <- (length_rev p). apply (trimStart_keeps _ _ c); [| done].
  apply list_elem_of_In. rewrite <- in_rev. by apply list_elem_of_In.
Qed.

Lemma trimEnd_snoc_space (s : str) : trimEnd (s ++ lit " ") = trimEnd s.
Proof. unfold trimEnd. by rewrite rev_app_distr. Qed.

Lemma trimEnd_snoc_keep (s : str) (c : ascii) :
  is_white_space c = false → trimEnd (s ++ [c]) = s ++ [c].
Proof.
  intros Hc. unfold trimEnd. rewrite rev_app_distr. simpl. rewrite Hc.
  change (c :: rev s) with ([c] ++ rev s).
  by rewrite rev_app_distr, rev_involutive.
Qed.

(** *** Line bodies *)




(** *** The wrapping loop *)

Lemma indent_cons (ts : str) : indent ts = " "%char :: replicate (length ts + 1) " "%char.
Proof. unfold indent. by replace (length ts + 2)%nat with (S (length ts + 1)) by lia. Qed.

Lemma indent_plain (ts : str) : ESC ∉ indent ts.
Proof. unfold indent. intros H. by apply elem_of_replicate in H as [H _]. Qed.

Lemma indent_no_LF (ts : str) : LF ∉ indent ts.
Proof. unfold indent. intros H. by apply elem_of_replicate in H as [H _]. Qed.

Lemma indent_length (ts : str) : length (indent ts) = (length ts + 2)%nat.
Proof. apply length_replicate. Qed.

Lemma chalk_gray_indent (level : nat) (ts : str) :
  (0 < level)%nat →
  chalk_gray level (indent ts) = sgr "90" ++ indent ts ++ sgr "39".
Proof.
  intros Hl. unfold chalk_gray.
  rewrite chalk_plain; [done | done | | apply indent_plain | apply indent_no_LF].
  by rewrite indent_cons.
Qed.


Lemma trimStart_ESC (s : str) : trimStart (ESC :: s) = ESC :: s.
Proof. reflexivity. Qed.



(** With colours, whatever the timestamp: which lines are pushed. *)
Section Wrapping.

Variable level : nat.
Variable t : str.
Hypothesis level_on : (0 < level)%nat.

#[local] Abbreviation ts := ("["%char :: t).

Lemma shape_not_start (line : str) :
  line_shape level ts line → line ≠ chalk_gray level ts ++ lit " ".
Proof.
  destruct (chalk_gray_bracket level t level_on) as [G HG].
  intros [(X & c & -> & Hc & _) | (X & ->)] Heq.
  - apply app_inv_head in Heq. injection Heq as ->. by apply elem_of_nil in Hc.
  - rewrite chalk_gray_indent, HG, indent_cons in Heq by done.
    rewrite <- !app_assoc in Heq. apply app_inv_head in Heq. discriminate Heq.
Qed.

Lemma shape_pushed (line : str) :
  line_shape level ts line → trim line ≠ chalk_gray level ts.
Proof.
  destruct (chalk_gray_bracket level t level_on) as [G HG].
  intros [(X & c & -> & Hc & Hws) | (X & ->)] Heq; unfold trim in Heq.
  - rewrite HG in Heq.
    change (sgr "90" ++ ("["%char :: G) ++ sgr "39")
      with (ESC :: (lit "[90m" ++ ("["%char :: G) ++ sgr "39")) in Heq.
    change ((ESC :: (lit "[90m" ++ ("["%char :: G) ++ sgr "39")) ++ " "%char :: X)
      with (ESC :: ((lit "[90m" ++ ("["%char :: G) ++ sgr "39") ++ " "%char :: X)) in Heq.
    rewrite trimStart_ESC in Heq.
    pose proof (trimEnd_keeps
                  ((ESC :: (lit "[90m" ++ ("["%char :: G) ++ sgr "39")) ++ [" "%char])
                  X c Hc Hws) as Hlen.
    rewrite <- app_assoc in Hlen.
    change ((ESC :: (lit "[90m" ++ ("["%char :: G) ++ sgr "39")) ++ [" "%char] ++ X)
      with (ESC :: ((lit "[90m" ++ ("["%char :: G) ++ sgr "39") ++ " "%char :: X))
      in Hlen.
    rewrite Heq, length_app in Hlen. simpl in Hlen. lia.
  - rewrite chalk_gray_indent in Heq by done.
    change (sgr "90" ++ indent ts ++ sgr "39")
      with (ESC :: (lit "[90m" ++ indent ts ++ sgr "39")) in Heq.
    change ((ESC :: (lit "[90m" ++ indent ts ++ sgr "39")) ++ X)
      with (ESC :: ((lit "[90m" ++ indent ts ++ sgr "39") ++ X)) in Heq.
    rewrite trimStart_ESC in Heq.
    destruct (trimEnd_prefix (ESC :: ((lit "[90m" ++ indent ts ++ sgr "39") ++ X)))
      as [r Hr].
    rewrite Heq, HG, indent_cons in Hr.
    discriminate Hr.
Qed.

Lemma start_not_pushed : pushLine level ts (wrapStart level ts) = [].
Proof.
  destruct (chalk_gray_bracket level t level_on) as [G HG].
  unfold pushLine, wrapStart. cbn [currentLine lines].
  rewrite bool_decide_eq_false_2; [done |]. intros Hne. apply Hne.
  unfold trim. rewrite HG.
  change ((sgr "90" ++ ("["%char :: G) ++ sgr "39") ++ lit " ")
    with (ESC :: ((lit "[90m" ++ ("["%char :: G) ++ sgr "39") ++ lit " ")).
  rewrite trimStart_ESC.
  change (ESC :: ((lit "[90m" ++ ("["%char :: G) ++ sgr "39") ++ lit " "))
    with ((sgr "90" ++ ("["%char :: G) ++ sgr "39") ++ lit " ").
  rewrite trimEnd_snoc_space.
  change (sgr "39") with (lit (String ESC "[39") ++ ["m"%char]).
  rewrite !app_assoc. by rewrite trimEnd_snoc_keep.
Qed.

Lemma shape_pushLine (w : Wrap) :
  line_shape level ts (currentLine w) →
  pushLine level ts w = lines w ++ [currentLine w].
Proof.
  intros H. unfold pushLine. rewrite bool_decide_eq_true_2; [done |].
  by apply shape_pushed.
Qed.

End Wrapping.

(** With colours and a timestamp without escape characters: what the loop
    maintains. *)
Section WrappingLoop.

Variable level : nat.
Variable t : str.
Variable maxWidth : Z.
Variable all : list str.
Hypothesis level_on : (0 < level)%nat.
Hypothesis t_plain : ESC ∉ t.

#[local] Abbreviation ts := ("["%char :: t).


Lemma endsWith_space_start : endsWith_space (ts ++ lit " ") = true.
Proof.
  unfold endsWith_space. change (lit " ") with [" "%char]. by rewrite last_snoc.
Qed.




End WrappingLoop.

(** With or without colours, for a bracketed timestamp without escape
    characters and words that are not empty once unstyled: the widths of
    the lines. *)
Section WidthLoop.

Variable level : nat.
Variable tm : str.
Variable maxWidth : Z.
Variable all : list str.
Hypothesis tm_plain : ESC ∉ tm.

#[local] Abbreviation t := (tm ++ lit "]").
#[local] Abbreviation ts := ("["%char :: t).








End WidthLoop.









(** With a doubled space the width test and the append disagree by one
    character: the second line of "bob: hello  wo" at width 20 holds two
    words and is 21 characters long. *)
Example doubled_space_overflows :
  map stripAnsiCodes (formatMessageToLines 1 doubledRecord 20)
  = [lit "[10:00:00] bob:"; lit "            hello  wo"]
  ∧ map plainLength (formatMessageToLines 1 doubledRecord 20) = [15; 21].
Proof. by vm_compute. Qed.

(** Without colours [chalk.gray(timestamp)] is the bracketed timestamp
    itself, and a continuation line that holds nothing but that text is
    taken for the bare timestamp line and dropped: the quoted timestamp is
    missing from the lines, which with colours are all there. *)
Example colourless_quote_is_dropped :
  map stripAnsiCodes (formatMessageToLines 0 quoteRecord 20)
  = [lit "[10:00:00] bob: at"; lit "            ok"]
  ∧ map stripAnsiCodes (formatMessageToLines 1 quoteRecord 20)
    = [lit "[10:00:00] bob: at"; lit "            [10:00:00]"; lit "            ok"].
Proof. by vm_compute. Qed.



(** * Further properties *)

(** ** Scrolling by steps *)

Lemma maxScroll_iter (k : ScrollKey) (n : nat) (s : UI) :
  maxScroll (Nat.iter n (onKey k) s) = maxScroll s.
Proof.
  induction n as [| n IH]; [done |]. simpl. by rewrite maxScroll_onKey.
Qed.

(** Pressing UP [n] times from a state within its bounds moves the view up
    by [n] records or to the top, whichever comes first, and the view is in
    scrolling mode as soon as it has moved. *)
Theorem scrollUp_repeated (s : UI) (n : nat) :
  scroll_bounds s →
  scrollPosition (Nat.iter n scrollUp s)
  = Z.min (scrollPosition s + Z.of_nat n) (maxScroll s)
  ∧ (scrollPosition s < scrollPosition (Nat.iter n scrollUp s) →
     viewMode (Nat.iter n scrollUp s) = scrolling).
Proof.
  intros [H0 Hmax]. induction n as [| n [IHp IHm]].
  - simpl. split; lia.
  - pose proof (maxScroll_iter UP n s) as Hms.
    change (onKey UP) with scrollUp in Hms.
    change (Nat.iter (S n) scrollUp s) with (scrollUp (Nat.iter n scrollUp s)).
    generalize dependent (Nat.iter n scrollUp s). intros sn IHp IHm Hms.
    unfold scrollUp. rewrite Hms.
    destruct (Z.ltb_spec (scrollPosition sn) (maxScroll s))
      as [Hlt | Hge]; cbn [set_scroll scrollPosition viewMode].
    + split; [lia | done].
    + split; [lia |]. intros Hmoved. by apply IHm.
Qed.

Lemma scrollUp_repeated_witness :
  scroll_bounds sampleUI
  ∧ scrollPosition (Nat.iter 3 scrollUp sampleUI) = 3
  ∧ scrollPosition (Nat.iter 25 scrollUp sampleUI) = 20.
Proof.
  assert (H : scroll_bounds sampleUI) by (vm_compute; split; discriminate).
  split; [exact H |]. split.
  - rewrite (proj1 (scrollUp_repeated sampleUI 3 H)). reflexivity.
  - rewrite (proj1 (scrollUp_repeated sampleUI 25 H)). reflexivity.
Defined.

(** Pressing DOWN [n] times moves the view down by [n] records or to the
    bottom, and a view that reaches the bottom this way is in normal mode. *)
Theorem scrollDown_repeated (s : UI) (n : nat) :
  0 <= scrollPosition s →
  scrollPosition (Nat.iter n scrollDown s)
  = Z.max 0 (scrollPosition s - Z.of_nat n)
  ∧ (0 < scrollPosition s <= Z.of_nat n →
     viewMode (Nat.iter n scrollDown s) = normal).
Proof.
  intros H0. induction n as [| n [IHp IHm]].
  - simpl. split; lia.
  - change (Nat.iter (S n) scrollDown s) with (scrollDown (Nat.iter n scrollDown s)).
    generalize dependent (Nat.iter n scrollDown s). intros sn IHp IHm.
    unfold scrollDown.
    destruct (Z.ltb_spec 0 (scrollPosition sn))
      as [Hlt | Hge]; cbn [set_scroll scrollPosition viewMode].
    + split; [lia |]. intros Hreach.
      destruct (Z.eqb_spec (scrollPosition sn - 1) 0); [done |].
      lia.
    + split; [lia |]. intros Hreach. apply IHm. lia.
Qed.

Lemma scrollDown_repeated_witness :
  0 <= scrollPosition fullUI
  ∧ scrollPosition (Nat.iter 20 scrollDown fullUI) = 30
  ∧ viewMode (Nat.iter 60 scrollDown fullUI) = normal.
Proof.
  assert (H : 0 <= scrollPosition fullUI) by (simpl; lia).
  split; [exact H |]. split.
  - rewrite (proj1 (scrollDown_repeated fullUI 20 H)). reflexivity.
  - apply (proj2 (scrollDown_repeated fullUI 60 H)). simpl. lia.
Defined.

Lemma UI_eq (s s' : UI) :
  messages s = messages s' → users s = users s' →
  updateStatus s = updateStatus s' → viewMode s = viewMode s' →
  scrollPosition s = scrollPosition s' → termHeight s = termHeight s' →
  s = s'.
Proof. destruct s, s'; simpl; intros; by subst. Qed.

(** A step up followed by a step down, by one record or by a page, brings
    back the state it started from when the step up was not cut short by
    the top; a step down followed by a step up does so from any scrolled
    position within the bounds. *)
Theorem scroll_step_round_trip (s : UI) :
  scroll_bounds s → mode_agrees s →
  (scrollPosition s < maxScroll s → scrollDown (scrollUp s) = s)
  ∧ (scrollPosition s + Z.max 1 (getVisibleMessageCount s - 1) <= maxScroll s →
     scrollPageDown (scrollPageUp s) = s)
  ∧ (0 < scrollPosition s → scrollUp (scrollDown s) = s).
Proof.
  intros [H0 Hmax] [Hn Hsc].
  assert (Hcase : viewMode s = normal ∧ scrollPosition s = 0
                  ∨ viewMode s = scrolling ∧ 0 < scrollPosition s).
  { destruct (viewMode s); [left | right]; split; try done; tauto. }
  clear Hn Hsc. split; [| split].
  - intros Hlt. unfold scrollUp.
    destruct (Z.ltb_spec (scrollPosition s) (maxScroll s)); [| lia].
    unfold scrollDown. cbn [set_scroll scrollPosition viewMode].
    destruct (Z.ltb_spec 0 (scrollPosition s + 1)); [| lia].
    apply UI_eq; cbn [set_scroll messages users updateStatus viewMode
                      scrollPosition termHeight]; try done; [| lia].
    destruct (Z.eqb_spec (scrollPosition s + 1 - 1) 0), Hcase as [[? ?] | [? ?]];
      (done || lia).
  - intros Hroom. unfold scrollPageUp, scrollPageDown.
    cbn [set_scroll scrollPosition viewMode].
    change (getVisibleMessageCount (set_scroll s ?p ?m)) with (getVisibleMessageCount s).
    set (pageSize := Z.max 1 (getVisibleMessageCount s - 1)) in *.
    apply UI_eq; cbn [set_scroll messages users updateStatus viewMode
                      scrollPosition termHeight]; try done; [| lia].
    destruct (Z.eqb_spec (Z.max 0 (Z.min (maxScroll s) (scrollPosition s + pageSize)
                                   - pageSize)) 0),
      Hcase as [[? ?] | [? ?]]; (done || lia).
  - intros Hpos. unfold scrollDown.
    destruct (Z.ltb_spec 0 (scrollPosition s)); [| lia].
    unfold scrollUp. rewrite maxScroll_set_scroll.
    cbn [set_scroll scrollPosition viewMode].
    destruct (Z.ltb_spec (scrollPosition s - 1) (maxScroll s)); [| lia].
    apply UI_eq; cbn [set_scroll messages users updateStatus viewMode
                      scrollPosition termHeight]; try done; [| lia].
    destruct Hcase as [[? ?] | [? ?]]; (done || lia).
Qed.

Lemma scroll_step_round_trip_witness :
  scroll_bounds sampleUI ∧ mode_agrees sampleUI
  ∧ scrollDown (scrollUp sampleUI) = sampleUI
  ∧ scrollPageDown (scrollPageUp sampleUI) = sampleUI.
Proof.
  assert (H : scroll_bounds sampleUI) by (vm_compute; split; discriminate).
  assert (Hm : mode_agrees sampleUI).
  { split; split; intros; simpl in *; (done || lia). }
  destruct (scroll_step_round_trip sampleUI H Hm) as (H1 & H2 & _).
  split; [exact H |]. split; [exact Hm |]. split.
  - apply H1. vm_compute. reflexivity.
  - apply H2. vm_compute. discriminate.
Defined.

(** ** Resizing *)

(** The handler of a terminal resize, whatever the new height, leaves a
    state within the bounds for that height with mode and position in
    agreement; the view never moves up, and a view that was scrolled up
    stays at its position unless the new top is lower; the log and the
    roster are untouched. *)
Theorem onResize_restores (height : Z) (s : UI) :
  0 <= scrollPosition s →
  termHeight (onResize height s) = height
  ∧ scroll_bounds (onResize height s)
  ∧ mode_agrees (onResize height s)
  ∧ scrollPosition (onResize height s) <= scrollPosition s
  ∧ (viewMode s = scrolling →
     scrollPosition (onResize height s)
     = Z.min (scrollPosition s) (maxScroll (onResize height s)))
  ∧ messages (onResize height s) = messages s
  ∧ users (onResize height s) = users s.
Proof.
  intros Hpos. unfold onResize. cbn [viewMode].
  case_bool_decide as Hmode.
  - unfold scrollToBottom, scroll_bounds, mode_agrees.
    cbn [set_scroll termHeight scrollPosition viewMode messages users].
    repeat split; try done; try lia.
    + apply maxScroll_nonneg.
    + by rewrite Hmode.
  - unfold adjustScrollPositionForResize, scroll_bounds, mode_agrees.
    rewrite !maxScroll_set_scroll.
    cbn [set_scroll termHeight scrollPosition viewMode messages users].
    match goal with |- context [maxScroll ?x] =>
      pose proof (maxScroll_nonneg x) as Hmax; set (top := maxScroll x) in *
    end.
    destruct (viewMode s) eqn:Hv; [done |].
    destruct (Z.eqb_spec (Z.min (scrollPosition s) top) 0);
      repeat split; intros; try done; try lia.
Qed.

(** Eighteen records seen from position 10 in a terminal of 14 rows that
    grows to 24 rows, where only positions up to 8 are left. *)
Lemma onResize_restores_witness :
  0 <= 10
  ∧ scrollPosition
      (onResize 24 {| messages := replicate 18 sampleRecord; users := [];
                      updateStatus := None; viewMode := scrolling;
                      scrollPosition := 10; termHeight := 14 |}) = 8
  ∧ viewMode
      (onResize 24 {| messages := replicate 18 sampleRecord; users := [];
                      updateStatus := None; viewMode := scrolling;
                      scrollPosition := 10; termHeight := 14 |}) = scrolling.
Proof.
  assert (H : 0 <= 10) by lia.
  pose proof (onResize_restores 24
                {| messages := replicate 18 sampleRecord; users := [];
                   updateStatus := None; viewMode := scrolling;
                   scrollPosition := 10; termHeight := 14 |} H)
    as (_ & _ & _ & _ & Hmin & _).
  split; [exact H |]. split.
  - rewrite (Hmin eq_refl). reflexivity.
  - reflexivity.
Defined.

(** ** What every reachable state satisfies *)

Lemma onKey_normal_at_bottom (k : ScrollKey) (s : UI) :
  scroll_bounds s →
  (viewMode s = normal → scrollPosition s = 0) →
  viewMode (onKey k s) = normal → scrollPosition (onKey k s) = 0.
Proof.
  intros [H0 Hmax] Hn.
  pose proof (getVisibleMessageCount_min s) as Hvis.
  destruct k; simpl;
    unfold scrollUp, scrollDown, scrollPageUp, scrollPageDown,
      scrollToTop, scrollToBottom;
    repeat match goal with
           | |- context [if ?a <? ?b then _ else _] => destruct (Z.ltb_spec a b)
           | |- context [if ?a =? ?b then _ else _] => destruct (Z.eqb_spec a b)
           end;
    cbn [set_scroll scrollPosition viewMode]; intros Hv; try done; try lia;
    specialize (Hn Hv); lia.
Qed.

Lemma trimMessages_normal_at_bottom (s : UI) :
  (viewMode s = normal → scrollPosition s = 0) →
  viewMode (trimMessages s) = normal → scrollPosition (trimMessages s) = 0.
Proof.
  intros Hn. destruct (trimMessages_spec s) as (_ & _ & -> & -> & _).
  destruct (Z.ltb_spec 0 (scrollPosition s)) as [Hlt | Hle]; simpl.
  - destruct (Z.leb_spec (scrollPosition s - Z.of_nat (length (messages s) - maxMessages)) 0);
      simpl; [lia |].
    intros Hv. specialize (Hn Hv). lia.
  - intros Hv. by apply Hn.
Qed.

Lemma handle_invariant (s : UI) (e : Event) :
  ui_invariant s → ui_invariant (handle s e).
Proof.
  intros (Hlen & Hb & Hn).
  split; [| split; [by apply handle_bounds |]].
  - destruct e as [k | h | d txt | d txt | d txt | d nm txt t | d txt | u | u]; simpl.
    + by rewrite (proj1 (onKey_frame k s)).
    + unfold onResize. by case_bool_decide.
    + apply (add_methods_capacity d txt txt None s).
    + apply (add_methods_capacity d txt txt None s).
    + apply (add_methods_capacity d txt txt None s).
    + apply (add_methods_capacity d nm txt t s).
    + apply (add_methods_capacity d txt txt None s).
    + done.
    + done.
  - destruct e as [k | h | d txt | d txt | d txt | d nm txt t | d txt | u | u]; simpl.
    + by apply onKey_normal_at_bottom.
    + unfold onResize. cbn [viewMode]. case_bool_decide as Hv; [done |].
      unfold adjustScrollPositionForResize.
      cbn [set_scroll scrollPosition viewMode].
      match goal with |- context [if ?a =? ?b then _ else _] =>
        destruct (Z.eqb_spec a b); [done |]
      end.
      intros Hmode. by contradict Hv.
    + by apply trimMessages_normal_at_bottom.
    + by apply trimMessages_normal_at_bottom.
    + by apply trimMessages_normal_at_bottom.
    + unfold addChatMessage.
      destruct (searchPending (messages s) txt (length (messages s)));
        by apply trimMessages_normal_at_bottom.
    + done.
    + done.
    + done.
Qed.

(** Whatever keys, resizes, server messages, submitted lines and roster
    changes an interface has seen since it was built, its log holds at most
    500 records, its scroll position is within its bounds, and a view in
    normal mode is at the bottom. *)
Theorem reachable_invariant (height : Z) (es : list Event) :
  ui_invariant (fold_left handle es (constructor height)).
Proof.
  assert (H0 : ui_invariant (constructor height)).
  { split; [simpl; lia |]. split; [| done].
    split; [done | apply maxScroll_nonneg]. }
  revert H0. generalize (constructor height).
  induction es as [| e es IH]; intros s Hs; [done |].
  simpl. apply IH. by apply handle_invariant.
Qed.

(** ** The estimate of visible records *)

(** [getVisibleMessageCount] is at least 1 and never more than the rows of
    the message area, [term.height] less the header, the input area and
    the two title rows, when there is such a row at all. *)
Theorem getVisibleMessageCount_bounds (s : UI) :
  1 <= getVisibleMessageCount s
  ∧ getVisibleMessageCount s <= Z.max 1 (contentHeight s - 2).
Proof.
  split; [apply getVisibleMessageCount_min |].
  unfold getVisibleMessageCount, contentHeight, headerHeight.
  set (h := termHeight s - (if truthy_str (updateStatus s) then 4 else 3) - 3 - 2).
  destruct (Z.ltb_spec h 1); [lia |].
  destruct (Z.ltb_spec h 10).
  - assert (5 * h / 6 <= h) by (apply Z.div_le_upper_bound; lia). lia.
  - assert (2 * h / 3 <= h) by (apply Z.div_le_upper_bound; lia). lia.
Qed.

(** ** The displayed window *)

Lemma slice_from {A : Type} (l : list A) (start : Z) :
  0 <= start → slice l start None = drop (Z.to_nat start) l.
Proof.
  intros H. unfold slice, sliceIndex.
  destruct (Z.ltb_spec start 0); [lia |].
  destruct (Nat.le_gt_cases (Z.to_nat start) (length l)) as [Hle | Hgt].
  - rewrite Nat.min_l by done. apply take_ge. rewrite length_drop. lia.
  - rewrite Nat.min_r by lia. rewrite !drop_ge by lia. by rewrite take_nil.
Qed.

Lemma slice_range {A : Type} (l : list A) (start end_ : Z) :
  0 <= start <= end_ → end_ <= Z.of_nat (length l) →
  slice l start (Some end_)
  = take (Z.to_nat end_ - Z.to_nat start) (drop (Z.to_nat start) l).
Proof.
  intros H He. unfold slice, sliceIndex.
  destruct (Z.ltb_spec start 0); [lia |].
  destruct (Z.ltb_spec end_ 0); [lia |].
  by rewrite !Nat.min_l by lia.
Qed.

(** The window in terms of the distance [off] of its lower end from the
    newest record. *)
Lemma display_window_at (s : UI) :
  scroll_bounds s →
  let n := Z.to_nat (Z.min (messages_length s) (getVisibleMessageCount s)) in
  let off := if bool_decide (viewMode s = normal) || (scrollPosition s =? 0)
             then O else Z.to_nat (scrollPosition s) in
  getMessagesToDisplay s
  = take n (drop (length (messages s) - off - n) (messages s))
  ∧ (off + n ≤ length (messages s))%nat.
Proof.
  intros [H0 Hmax] n off. subst n off.
  pose proof (getVisibleMessageCount_min s) as Hvis.
  unfold getMessagesToDisplay, maxScroll, messages_length in *.
  set (L := length (messages s)) in *.
  set (v := getVisibleMessageCount s) in *.
  destruct (Z.eqb_spec (Z.of_nat L) 0) as [Hz | Hnz].
  - assert (HL : L = O) by lia. rewrite HL.
    destruct (messages s); [| done].
    rewrite drop_nil, take_nil. split; [done |].
    destruct (bool_decide (viewMode s = normal) || (scrollPosition s =? 0)); simpl; lia.
  - destruct (bool_decide (viewMode s = normal) || (scrollPosition s =? 0)) eqn:Hb.
    + rewrite slice_from by lia. split; [| lia].
      replace (L - 0 - Z.to_nat (Z.min (Z.of_nat L) v))%nat
        with (Z.to_nat (Z.max 0 (Z.of_nat L - Z.max 1 v))) by lia.
      symmetry. apply take_ge. rewrite length_drop. fold L. lia.
    + apply orb_false_iff in Hb as [_ Hp]. apply Z.eqb_neq in Hp.
      rewrite slice_range by (fold L; lia). split; [| lia].
      f_equal; [lia |]. f_equal. lia.
Qed.

(** Under the scroll bounds the displayed window holds as many records as
    are visible, or the whole log when that is shorter: it is empty for an
    empty log only. *)
Theorem display_size (s : UI) :
  scroll_bounds s →
  Z.of_nat (length (getMessagesToDisplay s))
  = Z.min (messages_length s) (getVisibleMessageCount s)
  ∧ (getMessagesToDisplay s = [] ↔ messages s = []).
Proof.
  intros Hb. destruct (display_window_at s Hb) as [Heq Hfit].
  pose proof (getVisibleMessageCount_min s) as Hvis.
  cbv zeta in Heq, Hfit.
  assert (Hlen : Z.of_nat (length (getMessagesToDisplay s))
                 = Z.min (messages_length s) (getVisibleMessageCount s)).
  { rewrite Heq, length_take, length_drop. unfold messages_length in *. lia. }
  split; [done |]. unfold messages_length in Hlen. split.
  - intros Hnil. rewrite Hnil in Hlen. simpl in Hlen.
    destruct (messages s); [done | simpl in Hlen; lia].
  - intros Hnil. rewrite Hnil in Hlen. simpl in Hlen.
    destruct (getMessagesToDisplay s); [done | simpl in Hlen; lia].
Qed.

Lemma display_size_witness :
  scroll_bounds sampleUI
  ∧ Z.of_nat (length (getMessagesToDisplay sampleUI)) = 10.
Proof.
  assert (H : scroll_bounds sampleUI) by (vm_compute; split; discriminate).
  split; [exact H |].
  rewrite (proj1 (display_size sampleUI H)). reflexivity.
Defined.

(** In a state of the interface ([ui_invariant]) the window is the run of
    visible records that ends [scrollPosition] records before the newest:
    its last record is the one at index
    [messages.length - 1 - scrollPosition], the newest one at the bottom. *)
Theorem display_window (s : UI) :
  scroll_bounds s → (viewMode s = normal → scrollPosition s = 0) →
  let n := Z.to_nat (Z.min (messages_length s) (getVisibleMessageCount s)) in
  let p := Z.to_nat (scrollPosition s) in
  getMessagesToDisplay s
  = take n (drop (length (messages s) - p - n) (messages s))
  ∧ (messages s ≠ [] →
     last (getMessagesToDisplay s) = messages s !! (length (messages s) - 1 - p)%nat).
Proof.
  intros Hb Hn n p. destruct (display_window_at s Hb) as [Heq Hfit].
  pose proof (getVisibleMessageCount_min s) as Hvis.
  cbv zeta in Heq, Hfit. fold n in Heq, Hfit.
  assert (Hoff : (if bool_decide (viewMode s = normal) || (scrollPosition s =? 0)
                  then O else Z.to_nat (scrollPosition s)) = p).
  { unfold p. case_bool_decide as Hv; simpl.
    - by rewrite (Hn Hv).
    - destruct (Z.eqb_spec (scrollPosition s) 0) as [Hz | Hz]; [| done].
      by rewrite Hz. }
  rewrite Hoff in Heq, Hfit. split; [done |].
  intros Hne. rewrite Heq, last_lookup, length_take, length_drop.
  assert (HL : (0 < length (messages s))%nat)
    by (destruct (messages s); [done | simpl; lia]).
  assert (Hn1 : (1 ≤ n)%nat) by (unfold n, messages_length; lia).
  rewrite lookup_take_lt by lia. rewrite lookup_drop. f_equal. lia.
Qed.

Lemma display_window_witness :
  scroll_bounds (Nat.iter 3 scrollUp sampleUI)
  ∧ (viewMode (Nat.iter 3 scrollUp sampleUI) = normal →
     scrollPosition (Nat.iter 3 scrollUp sampleUI) = 0)
  ∧ getMessagesToDisplay (Nat.iter 3 scrollUp sampleUI)
    = take 10 (drop 17 (messages sampleUI)).
Proof.
  assert (H : scroll_bounds (Nat.iter 3 scrollUp sampleUI))
    by (vm_compute; split; discriminate).
  assert (Hn : viewMode (Nat.iter 3 scrollUp sampleUI) = normal →
               scrollPosition (Nat.iter 3 scrollUp sampleUI) = 0)
    by (intros Hv; discriminate Hv).
  split; [exact H |]. split; [exact Hn |].
  rewrite (proj1 (display_window _ H Hn)). reflexivity.
Defined.

Lemma window_shift {A : Type} (l : list A) (a v : nat) (x : A) :
  l !! (a + v)%nat = Some x → (1 ≤ v)%nat →
  take v (drop (S a) l) = drop 1 (take v (drop a l)) ++ [x].
Proof.
  revert l. induction a as [| a IH]; intros l Hx Hv.
  - destruct l as [| h t]; [done |]. destruct v as [| v]; [lia |].
    simpl in *. rewrite drop_0. by apply take_S_r.
  - destruct l as [| h t]; [done |]. simpl in *. by apply IH.
Qed.

(** While the view is scrolled up and the log is below its capacity, an
    appended record leaves the scroll position and the mode as they are,
    and the displayed window slides by one record toward the newest: its
    oldest record leaves and the record that was just below it enters. *)
Theorem append_slides_window (s : UI) (m : Message) :
  scroll_bounds s → viewMode s = scrolling → 0 < scrollPosition s →
  (length (messages s) < 500)%nat →
  scrollPosition (trimMessages (push m s)) = scrollPosition s
  ∧ viewMode (trimMessages (push m s)) = scrolling
  ∧ ∃ next,
      messages s !! (length (messages s) - Z.to_nat (scrollPosition s))%nat = Some next
      ∧ getMessagesToDisplay (trimMessages (push m s))
        = drop 1 (getMessagesToDisplay s) ++ [next].
Proof.
  intros Hb Hv Hpos Hlen.
  rewrite trimMessages_within
    by (simpl; rewrite length_app; simpl; unfold maxMessages; lia).
  split; [done |]. split; [done |].
  pose proof (getVisibleMessageCount_min s) as Hvis.
  assert (Hb' : scroll_bounds (push m s)).
  { destruct Hb as [H0 Hmax]. unfold scroll_bounds, maxScroll, messages_length in *.
    change (getVisibleMessageCount (push m s)) with (getVisibleMessageCount s).
    change (scrollPosition (push m s)) with (scrollPosition s).
    cbn [push set_messages messages]. rewrite length_app. simpl. lia. }
  destruct (display_window_at s Hb) as [Heq Hfit].
  destruct (display_window_at (push m s) Hb') as [Heq' Hfit'].
  cbv zeta in *.
  change (getVisibleMessageCount (push m s)) with (getVisibleMessageCount s) in *.
  change (scrollPosition (push m s)) with (scrollPosition s) in *.
  change (viewMode (push m s)) with (viewMode s) in *.
  unfold messages_length in *.
  cbn [push set_messages messages] in Heq', Hfit'.
  rewrite length_app in Heq', Hfit'. cbn [length] in Heq', Hfit'.
  rewrite Hv in *. rewrite bool_decide_eq_false_2 in * by done.
  destruct (Z.eqb_spec (scrollPosition s) 0); [lia |]. cbn [orb] in *.
  destruct Hb as [H0 Hmax]. unfold maxScroll, messages_length in Hmax.
  set (L := length (messages s)) in *.
  set (v := getVisibleMessageCount s) in *.
  set (p := Z.to_nat (scrollPosition s)) in *.
  assert (Hn : Z.to_nat (Z.min (Z.of_nat L) v) = Z.to_nat v) by lia.
  assert (Hn' : Z.to_nat (Z.min (Z.of_nat (L + 1)) v) = Z.to_nat v) by lia.
  rewrite Hn in *. rewrite Hn' in *.
  assert (Hnext : is_Some (messages s !! (L - p)%nat))
    by (apply lookup_lt_is_Some; fold L; lia).
  destruct Hnext as [next Hnext]. exists next. split; [done |].
  rewrite Heq, Heq'.
  replace (L + 1 - p - Z.to_nat v)%nat with (S (L - p - Z.to_nat v)) by lia.
  rewrite drop_app_le by (fold L; lia).
  rewrite take_app_le by (rewrite length_drop; fold L; lia).
  apply window_shift; [| lia].
  by replace (L - p - Z.to_nat v + Z.to_nat v)%nat with (L - p)%nat by lia.
Qed.

Lemma append_slides_window_witness :
  scroll_bounds (Nat.iter 3 scrollUp sampleUI)
  ∧ scrollPosition (trimMessages (push pendingHi (Nat.iter 3 scrollUp sampleUI))) = 3
  ∧ getMessagesToDisplay (trimMessages (push pendingHi (Nat.iter 3 scrollUp sampleUI)))
    = drop 1 (getMessagesToDisplay (Nat.iter 3 scrollUp sampleUI)) ++ [sampleRecord].
Proof.
  assert (H : scroll_bounds (Nat.iter 3 scrollUp sampleUI))
    by (vm_compute; split; discriminate).
  assert (Hlen : (length (messages (Nat.iter 3 scrollUp sampleUI)) < 500)%nat)
    by (vm_compute; lia).
  assert (Hpos : 0 < scrollPosition (Nat.iter 3 scrollUp sampleUI))
    by (vm_compute; reflexivity).
  destruct (append_slides_window _ pendingHi H eq_refl Hpos Hlen)
    as (Hp & _ & next & Hnext & Hwin).
  split; [exact H |]. split; [exact Hp |].
  rewrite Hwin. vm_compute in Hnext. injection Hnext as <-. reflexivity.
Defined.

(** ** The rows of the message area and of the roster *)

Lemma collectLines_app (level : nat) (maxLineWidth : Z) (ms : list Message)
    (acc : list str) :
  fold_left (λ renderedLines message,
               formatMessageToLines level message maxLineWidth ++ renderedLines)
    (reverse ms) acc
  = concat (map (λ m, formatMessageToLines level m maxLineWidth) ms) ++ acc.
Proof.
  revert acc. induction ms as [| m ms IH]; intros acc; [done |].
  rewrite reverse_cons, fold_left_app. simpl. rewrite IH. by rewrite <- app_assoc.
Qed.

Lemma collectLines_concat (level : nat) (maxLineWidth : Z) (ms : list Message) :
  collectLines level maxLineWidth (reverse ms)
  = concat (map (λ m, formatMessageToLines level m maxLineWidth) ms).
Proof. unfold collectLines. by rewrite collectLines_app, app_nil_r. Qed.

Lemma drawRows_spec (x maxY : Z) (lines : list str) :
  ∀ currentY,
    drawRows x currentY maxY lines
    = imap (λ i line, {| column := x; row := currentY + Z.of_nat i; termArg := line |})
        (take (Z.to_nat (maxY - currentY + 1)) lines).
Proof.
  induction lines as [| line rest IH]; intros currentY; simpl.
  - by rewrite take_nil.
  - destruct (Z.leb_spec currentY maxY) as [Hle | Hgt].
    + replace (Z.to_nat (maxY - currentY + 1))
        with (S (Z.to_nat (maxY - (currentY + 1) + 1))) by lia.
      simpl. rewrite Z.add_0_r. f_equal. rewrite IH.
      apply imap_ext. intros i l _. simpl. f_equal. lia.
    + by replace (Z.to_nat (maxY - currentY + 1)) with O by lia.
Qed.

Lemma drawRows_length (x currentY maxY : Z) (lines : list str) :
  length (drawRows x currentY maxY lines)
  = Nat.min (Z.to_nat (maxY - currentY + 1)) (length lines).
Proof. by rewrite drawRows_spec, length_imap, length_take. Qed.

Lemma drawRows_app (x maxY : Z) (a b : list str) :
  ∀ currentY,
    drawRows x currentY maxY (a ++ b)
    = drawRows x currentY maxY a
      ++ drawRows x (currentY + Z.of_nat (length (drawRows x currentY maxY a))) maxY b.
Proof.
  induction a as [| line a IH]; intros currentY.
  - simpl. by rewrite Z.add_0_r.
  - simpl. destruct (Z.leb_spec currentY maxY) as [Hle | Hgt].
    + simpl. f_equal. rewrite IH. f_equal. f_equal. lia.
    + simpl. rewrite Z.add_0_r. destruct b as [| l b]; [done |]. simpl.
      destruct (Z.leb_spec currentY maxY); [lia | done].
Qed.

Lemma drawLines_spec (x maxY : Z) (messageLines : list str) :
  ∀ currentY,
    drawLines x currentY maxY messageLines
    = (drawRows x currentY maxY messageLines,
       currentY + Z.of_nat (length (drawRows x currentY maxY messageLines))).
Proof.
  induction messageLines as [| line rest IH]; intros currentY; simpl.
  - by rewrite Z.add_0_r.
  - destruct (Z.ltb_spec maxY currentY) as [Hgt | Hle].
    + destruct (Z.leb_spec currentY maxY); [lia |]. simpl. by rewrite Z.add_0_r.
    + destruct (Z.leb_spec currentY maxY); [| lia].
      rewrite IH. simpl. f_equal. lia.
Qed.

(** The two loops of the scrolling branch draw the lines of the messages
    one after the other until the rows run out. *)
Lemma drawMessages_spec (level : nat) (x maxY maxLineWidth : Z) (ms : list Message) :
  ∀ currentY,
    drawMessages level x currentY maxY maxLineWidth ms
    = drawRows x currentY maxY
        (concat (map (λ m, formatMessageToLines level m maxLineWidth) ms)).
Proof.
  induction ms as [| m ms IH]; intros currentY; [done |].
  cbn [drawMessages map concat]. rewrite drawLines_spec, drawRows_app, IH.
  destruct (Z.ltb_spec maxY currentY) as [Hgt | Hle]; [| done].
  rewrite !drawRows_spec.
  replace (Z.to_nat (maxY - currentY + 1)) with O by lia.
  rewrite !take_0. simpl.
  match goal with |- context [take ?n _] => replace n with O by lia end.
  by rewrite take_0.
Qed.

(** What [renderMessages] passes to [term], in closed form: nothing for a
    [width] below 1, where the rule raises, and otherwise the last or the
    first [height - 2] lines of the displayed records. *)
Lemma renderMessages_chosen (level : nat) (s : UI) (x y width height : Z) :
  renderMessages level s x y width height
  = if width <=? 0 then None
    else
      Some (imap (λ i line,
                    {| column := x; row := y + 2 + Z.of_nat i; termArg := line |})
              (if bool_decide (viewMode s = normal)
               then drop (length (concat (map (λ m, formatMessageToLines level m
                                                      (width - 2))
                                            (getMessagesToDisplay s)))
                          - Z.to_nat (height - 2))
                      (concat (map (λ m, formatMessageToLines level m (width - 2))
                                 (getMessagesToDisplay s)))
               else take (Z.to_nat (height - 2))
                      (concat (map (λ m, formatMessageToLines level m (width - 2))
                                 (getMessagesToDisplay s))))).
Proof.
  set (available := Z.to_nat (height - 2)).
  unfold renderMessages, repeat_raises.
  destruct (Z.ltb_spec (width - 1) 0) as [Hneg | Hpos];
    destruct (Z.leb_spec width 0) as [Hle | Hgt]; try lia; [done |].
  f_equal.
  case_bool_decide as Hv; cbn [andb].
  - destruct (getMessagesToDisplay s) as [| m ms] eqn:Hd.
    + done.
    + replace (0 <? Z.of_nat (length (m :: ms))) with true
        by (symmetry; apply Z.ltb_lt; simpl; lia).
      f_equal.
      rewrite collectLines_concat.
      set (all := concat (map (λ m, formatMessageToLines level m (width - 2)) (m :: ms))).
      rewrite drawRows_spec.
      replace (Z.to_nat (y + 2 + (height - 2) - 1 - (y + 2) + 1))
        with available by (unfold available; lia).
      replace (y + 2 + (height - 2) - 1 - (y + 2) + 1) with (height - 2) by lia.
      destruct (Z.le_gt_cases (height - 2) 0) as [Hle | Hgt'].
      * assert (Ha : available = O) by (unfold available; lia).
        rewrite Ha, take_0, Nat.sub_0_r, drop_all. done.
      * unfold slice, sliceIndex.
        destruct (Z.ltb_spec (- (height - 2)) 0); [| lia].
        replace (Z.to_nat (Z.max 0 (Z.of_nat (length all) + - (height - 2))))
          with (length all - available)%nat by (unfold available; lia).
        rewrite (take_ge (drop _ _)) by (rewrite length_drop; lia).
        rewrite take_ge by (rewrite length_drop; lia). done.
  - f_equal. rewrite drawMessages_spec, drawRows_spec.
    by replace (Z.to_nat (y + 2 + (height - 2) - 1 - (y + 2) + 1))
      with available by (unfold available; lia).
Qed.

(** For a [width] below 1 [renderMessages] raises a RangeError before any
    message row.  Otherwise its calls [term(line)] are on consecutive rows
    from row [y + 2], in column [x], and at most [height - 2] of them.  The
    strings passed are, in order, the wrapped lines of the displayed
    records: the last [height - 2] of these lines in normal mode, the first
    [height - 2] otherwise. *)
Theorem renderMessages_rows (level : nat) (s : UI) (x y width height : Z) :
  let all := concat (map (λ m, formatMessageToLines level m (width - 2))
                       (getMessagesToDisplay s)) in
  let available := Z.to_nat (height - 2) in
  let chosen := if bool_decide (viewMode s = normal)
                then drop (length all - available) all
                else take available all in
  renderMessages level s x y width height
  = (if width <=? 0 then None
     else Some (imap (λ i line,
                        {| column := x; row := y + 2 + Z.of_nat i; termArg := line |})
                  chosen))
  ∧ (length chosen ≤ available)%nat.
Proof.
  intros all available chosen. subst chosen all available.
  split; [apply renderMessages_chosen |].
  case_bool_decide; [rewrite length_drop | rewrite length_take]; lia.
Qed.

Lemma formatMessageToLines_last (level : nat) (msg : Message) (maxWidth : Z) :
  is_Some (last (formatMessageToLines level msg maxWidth)).
Proof.
  unfold formatMessageToLines.
  destruct (_ <=? maxWidth); [by eexists |].
  destruct (pushLine _ _ _) as [| l ls] eqn:Hp; [by eexists |].
  rewrite last_cons. destruct (last ls); by eexists.
Qed.

(** With a [width] of at least 1, in normal mode, with a record in the log
    and a row to draw on, the string passed to [term] on the last row is
    the last line of the newest record. *)
Theorem newest_line_is_drawn (level : nat) (s : UI) (x y width height : Z) :
  1 <= width → viewMode s = normal → 3 <= height →
  ∀ newest, last (messages s) = Some newest →
    ∃ drawn, renderMessages level s x y width height = Some drawn
             ∧ termArg <$> last drawn
               = last (formatMessageToLines level newest (width - 2)).
Proof.
  intros Hw Hv Hh newest Hnew.
  rewrite renderMessages_chosen.
  destruct (Z.leb_spec width 0) as [Hle | _]; [lia |].
  eexists. split; [reflexivity |].
  rewrite (bool_decide_eq_true_2 _ Hv).
  assert (Hdisp : last (getMessagesToDisplay s) = Some newest).
  { unfold getMessagesToDisplay.
    assert (Hne : messages s ≠ []) by (intros E; by rewrite E in Hnew).
    destruct (Z.eqb_spec (messages_length s) 0) as [Hz | Hnz].
    { unfold messages_length in Hz. destruct (messages s); [done | simpl in Hz; lia]. }
    rewrite (bool_decide_eq_true_2 _ Hv). cbn [orb].
    rewrite slice_from by lia.
    pose proof (getVisibleMessageCount_min s) as Hvis.
    unfold messages_length in *.
    rewrite last_lookup, length_drop, lookup_drop.
    rewrite last_lookup in Hnew. rewrite <- Hnew. f_equal. lia. }
  set (all := concat (map (λ m, formatMessageToLines level m (width - 2))
                        (getMessagesToDisplay s))).
  assert (Hall : last all = last (formatMessageToLines level newest (width - 2))).
  { subst all. apply last_Some in Hdisp as [ms ->].
    rewrite map_app, concat_app. simpl. rewrite app_nil_r, last_app.
    by destruct (formatMessageToLines_last level newest (width - 2)) as [l ->]. }
  destruct (formatMessageToLines_last level newest (width - 2)) as [l Hl].
  rewrite Hl in Hall. rewrite Hl.
  assert (Hlen : (0 < length all)%nat).
  { destruct all; [done | simpl; lia]. }
  rewrite last_lookup, length_imap, length_drop, list_lookup_imap, lookup_drop.
  rewrite last_lookup in Hall.
  replace (length all - Z.to_nat (height - 2)
           + pred (length all - (length all - Z.to_nat (height - 2))))%nat
    with (pred (length all)) by lia.
  by rewrite Hall.
Qed.

Lemma newest_line_is_drawn_witness :
  1 <= 40 ∧ viewMode pendingUI = normal ∧ 3 <= 10
  ∧ ∃ drawn, renderMessages 1 pendingUI 1 4 40 10 = Some drawn
             ∧ termArg <$> last drawn = last (formatMessageToLines 1 sampleRecord 38).
Proof.
  assert (Hw : 1 <= 40) by lia.
  assert (H : 3 <= 10) by lia.
  split; [exact Hw |]. split; [reflexivity |]. split; [exact H |].
  exact (newest_line_is_drawn 1 pendingUI 1 4 40 10 Hw eq_refl H sampleRecord eq_refl).
Defined.


Lemma renderUsers_from (x y width height : Z) (l : list str) :
  ∀ k : nat,
    omap (λ entry : nat * str,
            let '(index, user) := entry in
            let lineY := y + 2 + Z.of_nat index in
            if lineY <? y + height - 1
            then Some {| rosterColumn := x; rosterRow := lineY;
                         nameArg := take (Z.to_nat (width - 4)) user |}
            else None)
         (imap (λ index user, ((k + index)%nat, user)) l)
    = imap (λ index user,
              {| rosterColumn := x; rosterRow := y + 2 + Z.of_nat (k + index);
                 nameArg := take (Z.to_nat (width - 4)) user |})
        (take (Z.to_nat (height - 3) - k) l).
Proof.
  induction l as [| u l IH]; intros k.
  - by rewrite take_nil.
  - rewrite imap_cons.
    assert (Hext : imap ((λ index user, ((k + index)%nat, user)) ∘ S) l
                   = imap (λ index user, ((S k + index)%nat, user)) l).
    { apply imap_ext. intros i z _. simpl. f_equal. lia. }
    rewrite Hext.
    match goal with
    | |- omap ?f (?a :: ?rest) = _ =>
        change (omap f (a :: rest))
          with (match f a with Some d => d :: omap f rest | None => omap f rest end)
    end.
    rewrite IH. cbv beta iota zeta. rewrite Nat.add_0_r.
    destruct (Z.ltb_spec (y + 2 + Z.of_nat k) (y + height - 1)) as [Hlt | Hge].
    + replace (Z.to_nat (height - 3) - k)%nat
        with (S (Z.to_nat (height - 3) - S k)) by lia.
      cbn [take]. rewrite imap_cons. rewrite Nat.add_0_r. f_equal.
      apply imap_ext. intros i z _. simpl. do 2 f_equal. lia.
    + replace (Z.to_nat (height - 3) - k)%nat with O by lia.
      replace (Z.to_nat (height - 3) - S k)%nat with O by lia.
      by rewrite !take_0.
Qed.

(** For a [width] below 1 [renderUsers] raises a RangeError before any
    roster row.  Otherwise its calls [term.green] are for the first
    [height - 3] users of the roster, in roster order, one per row from row
    [y + 2] in column [x]; what is passed after the bullet is the name cut
    to [width - 4] characters, nothing of it for a [width] from 1 to 4. *)
Theorem renderUsers_rows (s : UI) (x y width height : Z) :
  let listed := take (Z.to_nat (height - 3)) (users s) in
  renderUsers s x y width height
  = (if width <=? 0 then None
     else Some (imap (λ index user,
                        {| rosterColumn := x; rosterRow := y + 2 + Z.of_nat index;
                           nameArg := take (Z.to_nat (width - 4)) user |})
                  listed))
  ∧ (length listed ≤ Z.to_nat (height - 3))%nat
  ∧ Forall (λ user,
              Z.of_nat (length (take (Z.to_nat (width - 4)) user))
              <= Z.max 0 (width - 4))
      listed.
Proof.
  intros listed. subst listed. split; [| split].
  - unfold renderUsers, repeat_raises.
    destruct (Z.ltb_spec (width - 1) 0) as [Hneg | Hpos];
      destruct (Z.leb_spec width 0) as [Hle | Hgt]; try lia; [done |].
    f_equal.
    pose proof (renderUsers_from x y width height (users s) O) as H.
    rewrite Nat.sub_0_r in H. exact H.
  - rewrite length_take. lia.
  - apply Forall_forall. intros user _. rewrite length_take. lia.
Qed.

(** [renderMainContent] raises a RangeError exactly in terminals of at
    most 4 columns.  Up to 1 column the message pane is less than one
    column wide and [renderMessages] raises; up to 4 columns the roster
    pane is, and [renderUsers] raises. *)
Theorem renderMainContent_raises (level : nat) (s : UI) (width : Z) :
  (renderMainContent level s width = None ↔ width <= 4)
  ∧ (renderMessages level s 1 (headerHeight s + 1) (messageAreaWidth width)
       (contentHeight s) = None ↔ width <= 1)
  ∧ (renderUsers s (messageAreaWidth width + 2) (headerHeight s + 1)
       (userAreaWidth width) (contentHeight s) = None ↔ width <= 4).
Proof.
  unfold renderMainContent.
  rewrite renderMessages_chosen.
  unfold renderUsers, repeat_raises, userAreaWidth, messageAreaWidth.
  pose proof (Z.div_mod (3 * width) 4) as Hdiv.
  pose proof (Z.mod_pos_bound (3 * width) 4) as Hmod.
  destruct (Z.leb_spec (3 * width / 4) 0) as [Hle | Hgt];
    destruct (Z.ltb_spec (width - 3 * width / 4 - 1 - 1) 0) as [Hneg | Hpos];
    cbn [mbind option_bind]; repeat split; (done || lia).
Qed.

(** ** Sending and arriving *)

Lemma trimMessages_last (s : UI) (m : Message) :
  last (messages (trimMessages (push m s))) = Some m
  ∧ messages (trimMessages (push m s))
    = drop (length (messages s) + 1 - 500) (messages s) ++ [m].
Proof.
  destruct (trimMessages_spec (push m s)) as (Hm & _).
  cbn [push set_messages messages] in Hm. rewrite length_app in Hm.
  cbn [length] in Hm. unfold maxMessages in Hm.
  rewrite drop_app_le in Hm by lia.
  rewrite Hm. split; [by rewrite last_snoc | done].
Qed.

Lemma pending_echo_log (d : Date) (txt : str) (s : UI) :
  ∃ echo,
    messages (addPendingMessage d txt s)
    = drop (length (messages s) + 1 - 500) (messages s) ++ [echo]
    ∧ type echo = pending ∧ text echo = txt.
Proof.
  unfold addPendingMessage, scrollToBottom. cbn [set_scroll messages].
  eexists. split; [apply trimMessages_last |]. by split.
Qed.

(** After a line is sent the newest record of the log is its pending echo,
    carrying the text and the name "You", and the view is at the bottom in
    normal mode, wherever it was before. *)
Theorem pending_echo (d : Date) (txt : str) (s : UI) :
  ∃ echo,
    last (messages (addPendingMessage d txt s)) = Some echo
    ∧ type echo = pending ∧ text echo = txt ∧ name echo = Some (lit "You")
    ∧ messages (addPendingMessage d txt s)
      = drop (length (messages s) + 1 - 500) (messages s) ++ [echo]
    ∧ scrollPosition (addPendingMessage d txt s) = 0
    ∧ viewMode (addPendingMessage d txt s) = normal.
Proof.
  unfold addPendingMessage, scrollToBottom.
  cbn [set_scroll messages scrollPosition viewMode].
  eexists. split; [apply trimMessages_last |].
  repeat split; try reflexivity. apply trimMessages_last.
Qed.

(** Echo then confirmation: when the server confirms the text of a line
    just sent, the confirmation takes the place of the echo, so the log
    ends up as if the confirmed record had been appended in the first
    place. *)
Theorem confirm_after_echo (d d' : Date) (nm txt : str) (t : option Z) (s : UI) :
  messages (addChatMessage d' nm txt t (addPendingMessage d txt s))
  = messages (trimMessages (push (chatRecord d' nm txt t) s))
  ∧ last (messages (addChatMessage d' nm txt t (addPendingMessage d txt s)))
    = Some (chatRecord d' nm txt t).
Proof.
  destruct (pending_echo_log d txt s) as (echo & Hlog & Hty & Htx).
  destruct (trimMessages_last s (chatRecord d' nm txt t)) as [_ Hconf].
  set (kept := drop (length (messages s) + 1 - 500) (messages s)) in *.
  assert (Hlen : (length kept < 500)%nat) by (unfold kept; rewrite length_drop; lia).
  assert (Hfind : searchPending (kept ++ [echo]) txt (length (kept ++ [echo]))
                  = Some (length kept)).
  { apply (searchPending_finds _ _ _ echo); try done.
    - by rewrite lookup_app_r, Nat.sub_diag by lia.
    - intros j q Hj Hq. apply lookup_lt_Some in Hq.
      rewrite length_app in Hq. simpl in Hq. lia. }
  assert (Hleft : messages (addChatMessage d' nm txt t (addPendingMessage d txt s))
                  = kept ++ [chatRecord d' nm txt t]).
  { unfold addChatMessage. rewrite Hlog, Hfind.
    rewrite trimMessages_within.
    - cbn [set_messages messages].
      replace (length kept) with (length kept + 0)%nat by lia.
      by rewrite insert_app_r.
    - cbn [set_messages messages]. rewrite length_insert, length_app.
      simpl. unfold maxMessages. lia. }
  rewrite Hleft, Hconf. split; [done | by rewrite last_snoc].
Qed.

(** A record that arrives (system, error, info or chat) never moves a view
    that is at the bottom in normal mode, and below the capacity of the
    log it leaves any scroll position and mode as they are: only a sent
    line snaps the view to the bottom. *)
Theorem arrival_keeps_view (d : Date) (nm txt : str) (t : option Z) (s : UI) :
  (scrollPosition s = 0 ∨ (length (messages s) < 500)%nat) →
  Forall (λ s', scrollPosition s' = scrollPosition s ∧ viewMode s' = viewMode s)
    [addSystemMessage d txt s; addErrorMessage d txt s; addInfoMessage d txt s;
     addChatMessage d nm txt t s].
Proof.
  intros Hcase.
  assert (Htrim : ∀ ms, (length ms ≤ length (messages s) + 1)%nat →
            scrollPosition (trimMessages (set_messages s ms)) = scrollPosition s
            ∧ viewMode (trimMessages (set_messages s ms)) = viewMode s).
  { intros ms Hms.
    destruct (trimMessages_spec (set_messages s ms)) as (_ & _ & Hp & Hv & _).
    cbn [set_messages messages scrollPosition viewMode] in Hp, Hv.
    rewrite Hp, Hv. destruct Hcase as [H0 | Hlt].
    - rewrite H0. done.
    - replace (length ms - maxMessages)%nat with O by (unfold maxMessages; lia).
      rewrite bool_decide_eq_false_2 by auto. rewrite andb_false_r.
      destruct (Z.ltb_spec 0 (scrollPosition s)); split; (done || lia). }
  repeat constructor.
  1-6: apply (Htrim (messages s ++ [_])); rewrite length_app; simpl; lia.
  all: unfold addChatMessage;
    destruct (searchPending (messages s) txt (length (messages s)));
    [ apply (Htrim (<[_ := _]> (messages s))); rewrite length_insert; lia
    | apply (Htrim (messages s ++ [_])); rewrite length_app; simpl; lia ].
Qed.

Lemma arrival_keeps_view_witness :
  (scrollPosition (Nat.iter 3 scrollUp sampleUI) = 0
   ∨ (length (messages (Nat.iter 3 scrollUp sampleUI)) < 500)%nat)
  ∧ scrollPosition (addChatMessage sampleDate (lit "bob") (lit "hi") None
                      (Nat.iter 3 scrollUp sampleUI)) = 3.
Proof.
  assert (H : scrollPosition (Nat.iter 3 scrollUp sampleUI) = 0
              ∨ (length (messages (Nat.iter 3 scrollUp sampleUI)) < 500)%nat)
    by (right; vm_compute; lia).
  split; [exact H |].
  pose proof (arrival_keeps_view sampleDate (lit "bob") (lit "hi") None _ H) as Hall.
  apply Forall_cons in Hall as [_ Hall]. apply Forall_cons in Hall as [_ Hall].
  apply Forall_cons in Hall as [_ Hall]. apply Forall_cons in Hall as [[Hp _] _].
  rewrite Hp. reflexivity.
Defined.

(** ** Narrow widths and plain renderings *)

Lemma pushLine_continuation (level : nat) (t : str) (ls : list str) (rest plain : str) :
  (0 < level)%nat →
  pushLine level ("["%char :: t)
    {| lines := ls; currentLine := chalk_gray level (indent ("["%char :: t)) ++ rest;
       currentPlainLine := plain |}
  = ls ++ [chalk_gray level (indent ("["%char :: t)) ++ rest].
Proof. intros Hl. apply (shape_pushLine level t Hl). right. by eexists. Qed.

Lemma wrapWords_narrow_lines (level : nat) (t : str) (maxWidth : Z) (words : list str) :
  (0 < level)%nat → maxWidth <= 1 →
  ∀ w : Wrap, (2 ≤ length (currentPlainLine w))%nat →
    pushLine level ("["%char :: t)
      (fold_left (wrapWord level ("["%char :: t) maxWidth) words w)
    = pushLine level ("["%char :: t) w
      ++ map (λ word, chalk_gray level (indent ("["%char :: t)) ++ word) words.
Proof.
  intros Hl Hw. induction words as [| word words IH]; intros w Hlen.
  - by rewrite app_nil_r.
  - cbn [fold_left map]. rewrite wrapWord_narrow by done.
    rewrite IH by (cbn [currentPlainLine]; rewrite length_app, indent_length; lia).
    rewrite pushLine_continuation by done. by rewrite <- app_assoc.
Qed.

(** With colours ([chalk.level] above 0), at a width of 1 or less every
    word of the styled content is put on a line of its own after the
    indentation, and no line starts with the timestamp. *)
Theorem narrow_width_lines (level : nat) (msg : Message) (maxWidth : Z) :
  (0 < level)%nat → maxWidth <= 1 →
  formatMessageToLines level msg maxWidth
  = map (λ word, chalk_gray level (indent (bracket msg)) ++ word)
      (split_space (content level msg)).
Proof.
  intros Hl Hw. unfold formatMessageToLines.
  pose proof (fullMessage_plain_length level msg) as Hlen.
  destruct (Z.leb_spec (Z.of_nat (length (stripAnsiCodes (fullMessage level msg))))
              maxWidth); [lia |].
  unfold wrapWords. rewrite bracket_cons.
  rewrite wrapWords_narrow_lines;
    [| done | done | cbn [wrapStart currentPlainLine]; rewrite length_app; simpl; lia].
  rewrite start_not_pushed, app_nil_l by done.
  pose proof (split_space_nonempty (content level msg)) as Hne.
  by destruct (split_space (content level msg)).
Qed.

Lemma narrow_width_lines_witness :
  (0 < 1)%nat ∧ 1 <= 1
  ∧ map stripAnsiCodes (formatMessageToLines 1 helloRecord 1)
    = [lit "            bob:"; lit "            hello"; lit "            wonderful"].
Proof.
  assert (H0 : (0 < 1)%nat) by lia.
  assert (H : 1 <= 1) by lia.
  split; [exact H0 |]. split; [exact H |].
  rewrite (narrow_width_lines 1 helloRecord 1 H0 H). reflexivity.
Defined.

Lemma wrapWord_continuation (level : nat) (t : str) (maxWidth : Z) (w : Wrap)
    (word : str) :
  (0 < level)%nat →
  Forall (λ line, ∃ rest, line = chalk_gray level (indent ("["%char :: t)) ++ rest)
    (lines w) →
  (∃ rest, currentLine w = chalk_gray level (indent ("["%char :: t)) ++ rest) →
  Forall (λ line, ∃ rest, line = chalk_gray level (indent ("["%char :: t)) ++ rest)
    (lines (wrapWord level ("["%char :: t) maxWidth w word))
  ∧ ∃ rest, currentLine (wrapWord level ("["%char :: t) maxWidth w word)
            = chalk_gray level (indent ("["%char :: t)) ++ rest.
Proof.
  intros Hl Hlines [rest Hcur].
  assert (Hshape : line_shape level ("["%char :: t) (currentLine w)) by (right; eauto).
  unfold wrapWord.
  destruct (_ <=? maxWidth).
  - rewrite (bool_decide_eq_false_2 _ (shape_not_start level t Hl _ Hshape)).
    cbn [lines currentLine]. split; [done |].
    rewrite Hcur, <- app_assoc. by eexists.
  - cbn [lines currentLine]. rewrite (shape_pushLine level t Hl _ Hshape).
    split; [| by eexists].
    apply Forall_app. split; [done |]. constructor; [eauto | constructor].
Qed.

Lemma wrapWords_continuation (level : nat) (t : str) (maxWidth : Z) (words : list str) :
  (0 < level)%nat →
  ∀ w : Wrap,
    Forall (λ line, ∃ rest, line = chalk_gray level (indent ("["%char :: t)) ++ rest)
      (lines w) →
    (∃ rest, currentLine w = chalk_gray level (indent ("["%char :: t)) ++ rest) →
    Forall (λ line, ∃ rest, line = chalk_gray level (indent ("["%char :: t)) ++ rest)
      (pushLine level ("["%char :: t)
         (fold_left (wrapWord level ("["%char :: t) maxWidth) words w))
    ∧ pushLine level ("["%char :: t)
        (fold_left (wrapWord level ("["%char :: t) maxWidth) words w) ≠ [].
Proof.
  intros Hl. induction words as [| word words IH]; intros w Hlines Hcur.
  - simpl. destruct Hcur as [rest Hcur].
    rewrite (shape_pushLine level t Hl); [| right; eauto]. split.
    + apply Forall_app. split; [done |]. constructor; [by exists rest | constructor].
    + by destruct (lines w).
  - simpl.
    destruct (wrapWord_continuation level t maxWidth w word Hl Hlines Hcur) as [H1 H2].
    by apply IH.
Qed.

(** With colours ([chalk.level] above 0), when a message does not fit on
    one line and even its first word does not fit beside the timestamp, the
    timestamp is on no line of the result: every line starts with the
    indentation. *)
Theorem timestamp_dropped (level : nat) (msg : Message) (maxWidth : Z) :
  (0 < level)%nat →
  maxWidth < plainLength (fullMessage level msg) →
  maxWidth < Z.of_nat (length (bracket msg) + 1
                       + length (stripAnsiCodes
                                   (hd [] (split_space (content level msg))))) →
  Forall (λ line, ∃ rest, line = chalk_gray level (indent (bracket msg)) ++ rest)
    (formatMessageToLines level msg maxWidth).
Proof.
  intros Hl Hlong Hfirst. unfold formatMessageToLines. unfold plainLength in Hlong.
  destruct (Z.leb_spec (Z.of_nat (length (stripAnsiCodes (fullMessage level msg))))
              maxWidth); [lia |].
  pose proof (split_space_nonempty (content level msg)) as Hne.
  destruct (split_space (content level msg)) as [| word words]; [done |].
  cbn [hd] in Hfirst. unfold wrapWords. rewrite bracket_cons in *.
  set (t := timestamp msg ++ lit "]") in *.
  assert (Hfirst' : wrapWord level ("["%char :: t) maxWidth
                      (wrapStart level ("["%char :: t)) word
                    = {| lines := [];
                         currentLine := chalk_gray level (indent ("["%char :: t)) ++ word;
                         currentPlainLine :=
                           indent ("["%char :: t) ++ stripAnsiCodes word |}).
  { unfold wrapWord.
    change (currentPlainLine (wrapStart level ("["%char :: t)))
      with (("["%char :: t) ++ lit " ").
    rewrite endsWith_space_start, app_nil_l.
    match goal with |- context [Z.of_nat (length ?x) <=? maxWidth] =>
      destruct (Z.leb_spec (Z.of_nat (length x)) maxWidth) as [Hfit | _]
    end.
    - rewrite !length_app in Hfit. simpl in Hfit, Hfirst. lia.
    - by rewrite start_not_pushed. }
  cbn [fold_left]. rewrite Hfirst'.
  match goal with |- context [pushLine _ ?ts ?w] =>
    destruct (wrapWords_continuation level t maxWidth words Hl
                {| lines := [];
                   currentLine := chalk_gray level (indent ("["%char :: t)) ++ word;
                   currentPlainLine := indent ("["%char :: t) ++ stripAnsiCodes word |})
      as [Hall Hnonempty]
  end.
  - constructor.
  - by eexists.
  - by destruct (pushLine _ _ _).
Qed.

Lemma timestamp_dropped_witness :
  (0 < 1)%nat
  ∧ 10 < plainLength (fullMessage 1 helloRecord)
  ∧ Forall (λ line, ∃ rest, line = chalk_gray 1 (indent (bracket helloRecord)) ++ rest)
      (formatMessageToLines 1 helloRecord 10).
Proof.
  assert (H0 : (0 < 1)%nat) by lia.
  assert (H1 : 10 < plainLength (fullMessage 1 helloRecord)) by (vm_compute; reflexivity).
  assert (H2 : 10 < Z.of_nat (length (bracket helloRecord) + 1
                 + length (stripAnsiCodes (hd [] (split_space (content 1 helloRecord))))))
    by (vm_compute; reflexivity).
  split; [exact H0 |]. split; [exact H1 |].
  exact (timestamp_dropped 1 helloRecord 10 H0 H1 H2).
Defined.

(** What the reader sees of a record whose fields hold no escape
    character, with or without colours: the bracketed timestamp, a space,
    and [name: text] for a chat record, [name: text (sending...)] for a
    pending one, the text alone for the other kinds. *)
Theorem plain_rendering (level : nat) (msg : Message) :
  ESC ∉ timestamp msg → ESC ∉ name_text msg → ESC ∉ text msg →
  stripAnsiCodes (fullMessage level msg)
  = lit "[" ++ timestamp msg ++ lit "] "
    ++ match type msg with
       | chat => name_text msg ++ lit ": " ++ text msg
       | pending => name_text msg ++ lit ": " ++ text msg ++ lit " (sending...)"
       | _ => text msg
       end.
Proof. apply fullMessage_plain. Qed.

Lemma plain_rendering_witness :
  stripAnsiCodes (fullMessage 1 pendingHi) = lit "[10:00:00] You: hi (sending...)".
Proof.
  assert (Hplain : ∀ s : string, forallb (λ c, negb (bool_decide (c = ESC))) (lit s) = true →
                                 ESC ∉ lit s).
  { intros s Hs Hin. rewrite forallb_forall in Hs.
    apply list_elem_of_In in Hin. specialize (Hs _ Hin).
    by rewrite bool_decide_eq_true_2 in Hs. }
  rewrite (plain_rendering 1 pendingHi); [reflexivity | | |]; by apply Hplain.
Defined.

(** ** Suggestions *)

Lemma handleAutoComplete_elem (s : UI) (input r : str) :
  r ∈ handleAutoComplete s input →
  ∃ i user, lastIndexOf input "@"%char = Some i
            ∧ user ∈ users s
            ∧ toLowerCase (drop (i + 1) input) `prefix_of` toLowerCase user
            ∧ r = take (i + 1) input ++ user.
Proof.
  unfold handleAutoComplete. destruct input as [| a input].
  { intros H. by apply elem_of_nil in H. }
  destruct (lastIndexOf (a :: input) "@"%char) as [i |].
  - intros H. apply list_elem_of_fmap in H as (user & -> & Hin).
    apply list_elem_of_filter in Hin as [Hp Hin].
    exists i, user. repeat split; try done. by apply startsWith_prefix.
  - intros H. by apply elem_of_nil in H.
Qed.

(** Every suggestion continues what was typed, letter case aside: the
    lowercased input is a prefix of the lowercased suggestion, the
    suggestion ends with a name of the roster, and there are no more
    suggestions than names in the roster. *)
Theorem suggestions_extend_input (s : UI) (input : str) :
  Forall (λ r, toLowerCase input `prefix_of` toLowerCase r
               ∧ ∃ user, user ∈ users s ∧ user `suffix_of` r)
    (handleAutoComplete s input)
  ∧ (length (handleAutoComplete s input) ≤ length (users s))%nat.
Proof.
  split.
  - apply Forall_forall. intros r Hr.
    destruct (handleAutoComplete_elem s input r Hr) as (i & user & _ & Hin & Hp & ->).
    split.
    + rewrite <- (take_drop (i + 1) input) at 1. unfold toLowerCase.
      rewrite !map_app. by apply prefix_app.
    + exists user. split; [done |]. by apply suffix_app_r.
  - unfold handleAutoComplete. destruct input as [| a input]; [simpl; lia |].
    destruct (lastIndexOf (a :: input) "@"%char); [| simpl; lia].
    rewrite length_map. apply length_filter.
Qed.

Lemma lastIndexOf_app_at (input frag : str) :
  "@"%char ∉ frag →
  lastIndexOf (input ++ "@"%char :: frag) "@"%char = Some (length input).
Proof.
  intros Hfrag. apply lastIndexOf_None in Hfrag.
  induction input as [| a input IH]; simpl.
  - by rewrite Hfrag.
  - by rewrite IH.
Qed.

Lemma handleAutoComplete_at (s : UI) (input frag : str) :
  "@"%char ∉ frag →
  handleAutoComplete s (input ++ "@"%char :: frag)
  = map (λ user, (input ++ ["@"%char]) ++ user)
      (filter (λ user, startsWith (toLowerCase user) (toLowerCase frag) = true)
         (users s)).
Proof.
  intros Hfrag. unfold handleAutoComplete.
  rewrite (lastIndexOf_app_at input frag Hfrag).
  destruct (input ++ "@"%char :: frag) as [| a rest] eqn:E.
  { by destruct input. }
  rewrite <- E.
  replace (input ++ "@"%char :: frag) with ((input ++ ["@"%char]) ++ frag)
    by (by rewrite <- app_assoc).
  rewrite take_app_length', drop_app_length'; [done | |];
    rewrite length_app; simpl; lia.
Qed.

(** Once a user has joined, typing ['@'] and the beginning of the name, in
    any letter case, suggests that name; once the user has left, it is no
    longer suggested. *)
Theorem roster_feeds_suggestions (s : UI) (input frag user : str) :
  "@"%char ∉ frag →
  toLowerCase frag `prefix_of` toLowerCase user →
  (input ++ lit "@" ++ user)
    ∈ handleAutoComplete (addUser user s) (input ++ lit "@" ++ frag)
  ∧ (input ++ lit "@" ++ user)
    ∉ handleAutoComplete (removeUser user s) (input ++ lit "@" ++ frag).
Proof.
  intros Hfrag Hp.
  change (lit "@" ++ frag) with ("@"%char :: frag).
  change (lit "@" ++ user) with ("@"%char :: user).
  rewrite !handleAutoComplete_at by done.
  replace (input ++ "@"%char :: user) with ((input ++ ["@"%char]) ++ user)
    by (by rewrite <- app_assoc).
  split.
  - apply list_elem_of_fmap. exists user. split; [done |].
    apply list_elem_of_filter. split; [by apply startsWith_prefix |].
    unfold addUser. cbn [users]. case_bool_decide; [done |].
    apply elem_of_app. right. left.
  - intros Hin. apply list_elem_of_fmap in Hin as (u & Heq & Hu).
    apply app_inv_head in Heq as <-.
    apply list_elem_of_filter in Hu as [_ Hu].
    unfold removeUser in Hu. cbn [users] in Hu.
    by apply list_elem_of_filter in Hu as [Hne _].
Qed.

Lemma roster_feeds_suggestions_witness :
  ("@"%char ∉ lit "BO")
  ∧ (lit "hi @Bob") ∈ handleAutoComplete (addUser (lit "Bob") pendingUI) (lit "hi @BO").
Proof.
  assert (H1 : "@"%char ∉ lit "BO").
  { intros H. repeat (apply elem_of_cons in H as [H | H]; [discriminate H |]).
    by apply elem_of_nil in H. }
  assert (H2 : toLowerCase (lit "BO") `prefix_of` toLowerCase (lit "Bob"))
    by (by exists (lit "b")).
  split; [exact H1 |].
  exact (proj1 (roster_feeds_suggestions pendingUI (lit "hi ") (lit "BO") (lit "Bob") H1 H2)).
Defined.

(** Typing ['@'] alone, after any text, suggests the whole roster in its
    order, each name appended to what was typed. *)
Theorem at_sign_suggests_all (s : UI) (input : str) :
  handleAutoComplete s (input ++ lit "@")
  = map (λ user, input ++ lit "@" ++ user) (users s).
Proof.
  change (lit "@") with ["@"%char].
  rewrite (handleAutoComplete_at s input []) by apply not_elem_of_nil.
  induction (users s) as [| u us IH]; [done |].
  rewrite filter_cons.
  destruct (decide (startsWith (toLowerCase u) (toLowerCase []) = true)) as [_ | Hno].
  - cbn [map]. rewrite IH. by rewrite <- app_assoc.
  - exfalso. apply Hno. apply startsWith_prefix. apply prefix_nil.
Qed.

(** ** The connection *)

Lemma omap_cons_eq {A B : Type} (f : A → option B) (x : A) (l : list A) :
  omap f (x :: l) = match f x with
                    | Some y => y :: omap f l
                    | None => omap f l
                    end.
Proof. reflexivity. Qed.

Lemma handleMessage_seen (seen : Z) (data : Payload) :
  seen <= (handleMessage seen data).1
  ∧ (∀ e t, (handleMessage seen data).2 = Some e → chatStamp e = Some t →
            seen < t ∧ t = (handleMessage seen data).1).
Proof.
  unfold handleMessage.
  destruct (truthy_str (p_error data)).
  { split; [simpl; lia |]. intros e t. destruct (p_error data); simpl; [| done].
    by intros [= <-]. }
  destruct (truthy_str (p_joined data)).
  { split; [simpl; lia |]. intros e t. destruct (p_joined data); simpl; [| done].
    by intros [= <-]. }
  destruct (truthy_str (p_quit data)).
  { split; [simpl; lia |]. intros e t. destruct (p_quit data); simpl; [| done].
    by intros [= <-]. }
  destruct (p_ready data) eqn:Hr.
  { split; [simpl; lia |]. intros e t [= <-]. simpl. by rewrite Hr. }
  destruct (p_timestamp data) as [t0 |] eqn:Ht; [| split; [simpl; lia | done]].
  destruct (Z.eqb_spec t0 0); simpl; [split; [lia | done] |].
  destruct (Z.ltb_spec seen t0); simpl; [| split; [lia | done]].
  split; [lia |]. intros e t [= <-]. simpl. rewrite Hr, Ht. intros [= <-]. lia.
Qed.

Lemma handleMessages_cons (seen : Z) (data : Payload) (rest : list Payload) :
  handleMessages seen (data :: rest)
  = ((handleMessages (handleMessage seen data).1 rest).1,
     match (handleMessage seen data).2 with
     | Some e => e :: (handleMessages (handleMessage seen data).1 rest).2
     | None => (handleMessages (handleMessage seen data).1 rest).2
     end).
Proof.
  simpl. destruct (handleMessage seen data) as [seen' emitted]. simpl.
  by destruct (handleMessages seen' rest).
Qed.

Lemma handleMessages_seen (arrivals : list Payload) :
  ∀ seen,
    seen <= (handleMessages seen arrivals).1
    ∧ Forall (λ t, seen < t <= (handleMessages seen arrivals).1)
        (omap chatStamp (handleMessages seen arrivals).2).
Proof.
  induction arrivals as [| data rest IH]; intros seen.
  - simpl. split; [lia | constructor].
  - rewrite handleMessages_cons. cbn [fst snd].
    destruct (handleMessage_seen seen data) as [Hle Hstamp].
    destruct (IH (handleMessage seen data).1) as [Hle' Hall].
    split; [lia |].
    assert (Hrest : Forall (λ t, seen < t <= (handleMessages (handleMessage seen data).1 rest).1)
                      (omap chatStamp (handleMessages (handleMessage seen data).1 rest).2)).
    { eapply Forall_impl; [exact Hall |]. simpl. intros t Ht. lia. }
    destruct ((handleMessage seen data).2) as [e |] eqn:He; [| done].
    rewrite omap_cons_eq. destruct (chatStamp e) as [t |] eqn:Hs; [| done].
    destruct (Hstamp e t eq_refl Hs) as [Hlt Heq].
    constructor; [lia | done].
Qed.

(** Over any sequence of server messages [lastSeenTimestamp] never
    decreases, and the chat messages passed on carry strictly increasing
    time stamps, each later than the time stamp last seen before. *)
Theorem emitted_stamps_increase (seen : Z) (arrivals : list Payload) :
  seen <= (handleMessages seen arrivals).1
  ∧ Forall (λ t, seen < t) (omap chatStamp (handleMessages seen arrivals).2)
  ∧ ∀ i j ti tj, (i < j)%nat →
      omap chatStamp (handleMessages seen arrivals).2 !! i = Some ti →
      omap chatStamp (handleMessages seen arrivals).2 !! j = Some tj →
      ti < tj.
Proof.
  split; [apply handleMessages_seen |]. split.
  { eapply Forall_impl; [apply handleMessages_seen |]. simpl. intros t Ht. lia. }
  revert seen. induction arrivals as [| data rest IH]; intros seen i j ti tj Hij.
  - done.
  - rewrite handleMessages_cons. cbn [fst snd].
    destruct (handleMessage_seen seen data) as [_ Hstamp].
    destruct ((handleMessage seen data).2) as [e |] eqn:He; [| by apply IH].
    rewrite omap_cons_eq. destruct (chatStamp e) as [t |] eqn:Hs; [| by apply IH].
    destruct (Hstamp e t eq_refl Hs) as [_ Heq].
    destruct i as [| i], j as [| j]; try lia; simpl.
    + intros [= <-] Hj.
      destruct (handleMessages_seen rest (handleMessage seen data).1) as [_ Hall].
      rewrite Forall_forall in Hall.
      assert (Hin : tj ∈ omap chatStamp (handleMessages (handleMessage seen data).1 rest).2)
        by (apply list_elem_of_lookup; eauto).
      specialize (Hall _ Hin). lia.
    + apply IH. lia.
Qed.

Lemma handleMessage_stale (seen : Z) (data : Payload) :
  chat_only data →
  (∀ t, p_timestamp data = Some t → t = 0 ∨ t <= seen) →
  handleMessage seen data = (seen, None).
Proof.
  intros (He & Hj & Hq & Hr) Hold. unfold handleMessage.
  rewrite He, Hj, Hq, Hr.
  destruct (p_timestamp data) as [t |]; [| done].
  specialize (Hold t eq_refl).
  destruct (Z.eqb_spec t 0); [done |]. simpl.
  by destruct (Z.ltb_spec seen t); [lia |].
Qed.

Lemma handleMessages_stale (arrivals : list Payload) (seen : Z) :
  Forall chat_only arrivals →
  Forall (λ data, ∀ t, p_timestamp data = Some t → t = 0 ∨ t <= seen) arrivals →
  handleMessages seen arrivals = (seen, []).
Proof.
  induction arrivals as [| data rest IH]; intros Hchat Hold; [done |].
  apply Forall_cons in Hchat as [Hc Hchat], Hold as [Ho Hold].
  rewrite handleMessages_cons, handleMessage_stale by done.
  cbn [fst snd]. by rewrite IH.
Qed.

Lemma handleMessages_covers (arrivals : list Payload) :
  ∀ seen,
    Forall chat_only arrivals →
    Forall (λ data, ∀ t, p_timestamp data = Some t →
                         t = 0 ∨ t <= (handleMessages seen arrivals).1) arrivals.
Proof.
  induction arrivals as [| data rest IH]; intros seen Hchat; [constructor |].
  apply Forall_cons in Hchat as [(He & Hj & Hq & Hr) Hchat].
  rewrite handleMessages_cons. cbn [fst].
  destruct (handleMessages_seen rest (handleMessage seen data).1) as [Hle _].
  constructor; [| by apply IH].
  intros t Ht.
  destruct (Z.eq_dec t 0) as [Hz | Hnz]; [by left | right].
  assert (t <= (handleMessage seen data).1); [| lia].
  unfold handleMessage. rewrite He, Hj, Hq, Hr, Ht.
  destruct (Z.eqb_spec t 0); [done |]. simpl.
  destruct (Z.ltb_spec seen t); simpl; lia.
Qed.

(** A history that is replayed, as after a reconnection, is dropped whole:
    once a sequence of chat messages has been handled, handling the same
    sequence again passes nothing on and leaves [lastSeenTimestamp] as it
    is. *)
Theorem replay_is_dropped (seen : Z) (arrivals : list Payload) :
  Forall chat_only arrivals →
  handleMessages (handleMessages seen arrivals).1 arrivals
  = ((handleMessages seen arrivals).1, []).
Proof.
  intros Hchat. apply handleMessages_stale; [done |].
  by apply handleMessages_covers.
Qed.

Lemma replay_is_dropped_witness :
  Forall chat_only
    [mkPayload None None None false (Some 5) (Some (lit "bob")) (Some (lit "hi"));
     mkPayload None None None false (Some 3) (Some (lit "amy")) (Some (lit "yo"))]
  ∧ handleMessages 5
      [mkPayload None None None false (Some 5) (Some (lit "bob")) (Some (lit "hi"));
       mkPayload None None None false (Some 3) (Some (lit "amy")) (Some (lit "yo"))]
    = (5, []).
Proof.
  assert (H : Forall chat_only
                [mkPayload None None None false (Some 5) (Some (lit "bob")) (Some (lit "hi"));
                 mkPayload None None None false (Some 3) (Some (lit "amy")) (Some (lit "yo"))])
    by (repeat constructor).
  split; [exact H |].
  exact (replay_is_dropped 0 _ H).
Defined.

(** ** Versions *)

Lemma newerFrom_true (latestParts currentParts : list Z) (n : nat) :
  ∀ i, newerFrom latestParts currentParts i n = true
       ↔ ∃ k, (i ≤ k < i + n)%nat
              ∧ nth k currentParts 0 < nth k latestParts 0
              ∧ ∀ j, (i ≤ j < k)%nat → nth j latestParts 0 = nth j currentParts 0.
Proof.
  induction n as [| n IH]; intros i; simpl.
  - split; [done |]. intros (k & Hk & _). lia.
  - destruct (Z.ltb_spec (nth i currentParts 0) (nth i latestParts 0)) as [Hlt | Hge].
    + split; [| done]. intros _. exists i. split; [lia |]. split; [done |].
      intros j Hj. lia.
    + destruct (Z.ltb_spec (nth i latestParts 0) (nth i currentParts 0)) as [Hlt | Hle].
      * split; [done |]. intros (k & Hk & Hlarger & Heq).
        destruct (decide (k = i)) as [-> | Hne]; [lia |].
        specialize (Heq i). lia.
      * rewrite IH. split.
        -- intros (k & Hk & Hlarger & Heq). exists k. split; [lia |].
           split; [done |]. intros j Hj.
           destruct (decide (j = i)) as [-> | Hne]; [lia |]. apply Heq. lia.
        -- intros (k & Hk & Hlarger & Heq). exists k.
           destruct (decide (k = i)) as [-> | Hne]; [lia |].
           split; [lia |]. split; [done |]. intros j Hj. apply Heq. lia.
Qed.

Lemma newerFrom_first (a b : list Z) :
  newerFrom a b O (Nat.max (length a) (length b)) = true
  ↔ ∃ k, first_larger_at a b k.
Proof.
  rewrite newerFrom_true. unfold first_larger_at. split.
  - intros (k & _ & Hl & Heq). exists k. split; [done |]. intros j Hj. apply Heq. lia.
  - intros (k & Hl & Heq). exists k. split; [| split; [done |]].
    + destruct (Nat.lt_ge_cases k (Nat.max (length a) (length b))) as [Hlt | Hge];
        [lia |].
      rewrite !nth_overflow in Hl by lia. lia.
    + intros j Hj. apply Heq. lia.
Qed.

Lemma newerFrom_neither (a b : list Z) (n : nat) :
  ∀ i, newerFrom a b i n = false → newerFrom b a i n = false →
       ∀ j, (i ≤ j < i + n)%nat → nth j a 0 = nth j b 0.
Proof.
  induction n as [| n IH]; intros i Hab Hba j Hj; [lia |].
  simpl in Hab, Hba.
  destruct (Z.ltb_spec (nth i b 0) (nth i a 0)); [done |].
  destruct (Z.ltb_spec (nth i a 0) (nth i b 0)); [done |].
  destruct (decide (j = i)) as [-> | Hne]; [lia |].
  apply (IH (S i)); [done | done | lia].
Qed.

Lemma first_larger_asym (a b : list Z) (k k' : nat) :
  first_larger_at a b k → first_larger_at b a k' → False.
Proof.
  intros [Hl Heq] [Hl' Heq'].
  destruct (Nat.lt_trichotomy k k') as [H | [-> | H]].
  - specialize (Heq' k H). lia.
  - lia.
  - specialize (Heq k' H). lia.
Qed.

Lemma first_larger_trans (a b c : list Z) (k k' : nat) :
  first_larger_at a b k → first_larger_at b c k' →
  first_larger_at a c (Nat.min k k').
Proof.
  intros [Hl Heq] [Hl' Heq'].
  destruct (Nat.lt_trichotomy k k') as [H | [-> | H]].
  - rewrite Nat.min_l by lia. split.
    + rewrite <- (Heq' k H). done.
    + intros j Hj. rewrite (Heq j Hj). apply Heq'. lia.
  - rewrite Nat.min_id. split; [lia |].
    intros j Hj. rewrite (Heq j Hj). by apply Heq'.
  - rewrite Nat.min_r by lia. split.
    + rewrite (Heq k' H). done.
    + intros j Hj. rewrite (Heq j); [by apply Heq' | lia].
Qed.

(** [isNewerVersion] is a strict order on versions read part by part, a
    missing part counting as 0: no version is newer than itself, two
    versions are never each newer than the other, newer than newer is
    newer, and neither of two versions is newer exactly when their parts
    agree. *)
Theorem isNewerVersion_order (toNumber : str → Z) (a b c : str) :
  isNewerVersion toNumber a a = false
  ∧ (isNewerVersion toNumber a b = true → isNewerVersion toNumber b a = false)
  ∧ (isNewerVersion toNumber a b = true → isNewerVersion toNumber b c = true →
     isNewerVersion toNumber a c = true)
  ∧ (isNewerVersion toNumber a b = false ∧ isNewerVersion toNumber b a = false
     ↔ ∀ k, nth k (map toNumber (split_on "."%char a)) 0
            = nth k (map toNumber (split_on "."%char b)) 0).
Proof.
  unfold isNewerVersion.
  set (pa := map toNumber (split_on "."%char a)).
  set (pb := map toNumber (split_on "."%char b)).
  set (pc := map toNumber (split_on "."%char c)).
  split; [| split; [| split]].
  - apply not_true_is_false. rewrite newerFrom_first.
    intros (k & Hl & _). lia.
  - intros Hab. apply not_true_is_false. intros Hba.
    apply newerFrom_first in Hab as [k Hk], Hba as [k' Hk'].
    by apply (first_larger_asym pa pb k k').
  - intros Hab Hbc. apply newerFrom_first.
    apply newerFrom_first in Hab as [k Hk], Hbc as [k' Hk'].
    exists (Nat.min k k'). by apply (first_larger_trans pa pb pc).
  - split.
    + intros [Hab Hba] k.
      destruct (Nat.lt_ge_cases k (Nat.max (length pa) (length pb))) as [Hlt | Hge].
      * apply (newerFrom_neither pa pb _ O Hab).
        -- by rewrite Nat.max_comm.
        -- lia.
      * by rewrite !nth_overflow by lia.
    + intros Heq. split; apply not_true_is_false; rewrite newerFrom_first;
        intros (k & Hl & _); specialize (Heq k); lia.
Qed.
